(** * CodeGuard: language scope resolution and the guard permission timeline

    Part I embeds [resources/language_scope_loader.py] (class
    [LanguageScopeLoader]): the JSON configuration, the cached loader
    object, and the recursive resolution of a language's scopes along its
    [extends] chain.

    Part II models the permission timeline builder, whose implementation
    is not part of the Python sources; it is modelled from the
    specification and exercised on the Python fixtures. *)

From stdpp Require Import gmap strings list fin_maps.

Open Scope string_scope.
Open Scope list_scope.
Open Scope nat_scope.

(** ** Part I: [LanguageScopeLoader] *)

Module Loader.

(** A resolved scope table: scope name -> list of tree-sitter node types
    (a Python [Dict[str, List[str]]]). *)
Abbreviation scope_map := (gmap string (list string)).

(** One entry of ["languages"] in language-scopes.json.  Both keys are
    optional in the code (['extends' in lang_config],
    ['scopes' in lang_config]). *)
Record lang_config := LangConfig {
  extends : option string;
  scopes : option scope_map
}.

(** The parsed JSON document; [config.get('languages', {})] tolerates a
    document without the key. *)
Record config := Config {
  languages : option (gmap string lang_config)
}.

(** Outcome of [open(...)] + [json.load(...)] on [config_path]: the parsed
    document, or the text of the exception that was raised. *)
Inductive read_result :=
  | ReadOk (c : config)
  | ReadError (e : string).

(** The mutable fields of a [LanguageScopeLoader] instance, together with
    what the instance has printed so far. *)
Record loader := Loader {
  _config : option config;
  _resolved_scopes : option (gmap string scope_map);
  stdout : list string
}.

(** [__init__]: nothing loaded, nothing resolved. *)
Definition init : loader :=
  {| _config := None; _resolved_scopes := None; stdout := [] |}.

Definition print (msg : string) (self : loader) : loader :=
  {| _config := _config self;
     _resolved_scopes := _resolved_scopes self;
     stdout := stdout self ++ [msg] |}.

Definition set_config (c : config) (self : loader) : loader :=
  {| _config := Some c;
     _resolved_scopes := _resolved_scopes self;
     stdout := stdout self |}.

Definition set_resolved_scopes (r : gmap string scope_map) (self : loader) : loader :=
  {| _config := _config self;
     _resolved_scopes := Some r;
     stdout := stdout self |}.

(** The minimal fallback configuration returned when loading fails. *)
Definition fallback_config : config := {| languages := Some ∅ |}.

Definition load_failure (e : string) : string :=
  "Failed to load language scopes configuration: " +:+ e.

Definition circular_warning (lang_id : string) : string :=
  "Warning: Circular dependency detected for language: " +:+ lang_id.

(** [load_config]: the cached document if there is one; otherwise read the
    file, caching the document on success and printing and returning the
    fallback (without caching it) on failure. *)
Definition load_config (file : read_result) (self : loader) : config * loader :=
  match _config self with
  | Some c => (c, self)
  | None =>
      match file with
      | ReadOk c => (c, set_config c self)
      | ReadError e => (fallback_config, print (load_failure e) self)
      end
  end.

(** [for key, values in parent_scopes.items(): scopes[key] = list(values)]
    starting from [scopes = {}]. *)
Definition copy_scopes (parent_scopes : scope_map) : scope_map :=
  map_fold (λ key values scopes, <[key := values]> scopes) ∅ parent_scopes.

(** One iteration of the loop over [lang_config['scopes'].items()]. *)
Definition apply_scope (key : string) (values : list string) (scopes : scope_map) : scope_map :=
  match scopes !! key with
  | Some present => <[key := present ++ values]> scopes
  | None => <[key := values]> scopes
  end.

(** The whole loop: extend the entries already present, add the new ones. *)
Definition apply_scopes (own : scope_map) (scopes : scope_map) : scope_map :=
  map_fold apply_scope scopes own.

Section Resolve.

Variable file : read_result.

(** [resolve_language_scopes] with its recursion made structural.  The
    number [depth] is the count of nested recursive calls still allowed: it
    is consulted only where the Python code calls itself, and [None] means
    that this allowance was exhausted.  The [visited] set is the one shared
    mutable set of the Python code, so it is threaded through and returned,
    as is the loader object. *)
Fixpoint resolve_rec (depth : nat) (lang_id : string) (visited : gset string)
    (self : loader) : option (scope_map * gset string * loader) :=
  if decide (lang_id ∈ visited) then
    Some (∅, visited, print (circular_warning lang_id) self)
  else
    let visited := {[lang_id]} ∪ visited in
    let '(config, self) := load_config file self in
    let languages := default ∅ (languages config) in
    match languages !! lang_id with
    | None => Some (∅, visited, self)
    | Some lang_config =>
        let declared := scopes lang_config in
        inherited ←
          match extends lang_config with
          | Some parent =>
              match depth with
              | O => None
              | S depth =>
                  '(parent_scopes, visited, self) ←
                    resolve_rec depth parent visited self;
                  Some (copy_scopes parent_scopes, visited, self)
              end
          | None => Some (∅, visited, self)
          end;
        let '(scopes, visited, self) := inherited in
        let scopes :=
          match declared with
          | Some own => apply_scopes own scopes
          | None => scopes
          end in
        Some (scopes, visited, self)
    end.

(** The languages the loader works with in state [self]. *)
Definition known_languages (self : loader) : gmap string lang_config :=
  default ∅ (languages (load_config file self).1).

(** [resolve_language_scopes(lang_id, visited)]: [visited=None] stands for a
    fresh empty set.  The allowance of nested calls is the number of
    configured languages. *)
Definition resolve_language_scopes (lang_id : string) (visited : option (gset string))
    (self : loader) : option (scope_map * gset string * loader) :=
  resolve_rec (size (known_languages self)) lang_id (default ∅ visited) self.

(** The mapping that a call [resolve_language_scopes(lang_id)] returns,
    if it returns. *)
Definition resolved_mapping (lang_id : string) (self : loader) : option scope_map :=
  (λ x, x.1.1) <$> resolve_language_scopes lang_id None self.

(** The loop of [get_all_scopes], over the language ids in the order the
    dictionary enumerates them. *)
Fixpoint resolve_each (lang_ids : list string) (self : loader) : option loader :=
  match lang_ids with
  | [] => Some self
  | lang_id :: lang_ids =>
      '(scopes, _, self) ← resolve_language_scopes lang_id None self;
      resolve_each lang_ids
        (set_resolved_scopes (<[lang_id := scopes]> (default ∅ (_resolved_scopes self))) self)
  end.

Definition get_all_scopes (self : loader) : option (gmap string scope_map * loader) :=
  match _resolved_scopes self with
  | Some resolved => Some (resolved, self)
  | None =>
      let '(config, self) := load_config file self in
      let languages := default ∅ (languages config) in
      self ← resolve_each (map_to_list languages).*1 (set_resolved_scopes ∅ self);
      Some (default ∅ (_resolved_scopes self), self)
  end.

(** [get_language_scopes]: [all_scopes.get(lang_id)], i.e. Python's [None]
    for a language that has no entry. *)
Definition get_language_scopes (lang_id : string) (self : loader)
    : option (option scope_map * loader) :=
  '(all_scopes, self) ← get_all_scopes self;
  Some (all_scopes !! lang_id, self).

(** Truthiness of an [Optional[Dict]]: [None] and the empty dict are falsy. *)
Definition truthy (lang_scopes : option scope_map) : bool :=
  match lang_scopes with
  | None => false
  | Some m => negb (bool_decide (m = ∅))
  end.

Definition is_node_type_in_scope (lang_id node_type scope : string) (self : loader)
    : option (bool * loader) :=
  '(lang_scopes, self) ← get_language_scopes lang_id self;
  if negb (truthy lang_scopes) then Some (false, self)
  else
    let scope_types := default [] (default ∅ lang_scopes !! scope) in
    Some (bool_decide (node_type ∈ scope_types), self).

End Resolve.

(** *** The [extends] relation of a configuration

    Vocabulary for stating properties of the resolution: parents,
    ancestors, cycles, and the part of [resolve_rec] that does not involve
    the loader object. *)

Section Chain.

Variable L : gmap string lang_config.

(** The language named by ['extends'], for a configured language. *)
Definition parent_of (lang_id : string) : option string :=
  c ← L !! lang_id; extends c.

(** The [k]-th language up the [extends] chain, as long as the chain stays
    inside the configuration until the step before. *)
Fixpoint ancestor (k : nat) (lang_id : string) : option string :=
  match k with
  | O => Some lang_id
  | S k => p ← parent_of lang_id; ancestor k p
  end.

(** The parent chain of [lang_id] cycles back to [lang_id]. *)
Definition cyclic (lang_id : string) : Prop :=
  ∃ k, 0 < k ∧ ancestor k lang_id = Some lang_id.

(** What a language adds to the scopes inherited from its parent. *)
Definition add_declared (c : lang_config) (inherited : scope_map) : scope_map :=
  match scopes c with
  | Some own => apply_scopes own inherited
  | None => inherited
  end.

(** The first [j] configurations met on the chain that starts at
    [lang_id], the language itself first. *)
Fixpoint lineage (j : nat) (lang_id : string) : list lang_config :=
  match j with
  | O => []
  | S j =>
      match L !! lang_id with
      | Some c => c :: match extends c with Some p => lineage j p | None => [] end
      | None => []
      end
  end.

(** Merging a lineage: the farthest ancestor contributes first. *)
Definition merge_lineage (cs : list lang_config) : scope_map :=
  foldr add_declared ∅ cs.

(** [resolve_rec] without the loader object: the resolved scopes, the
    visited set afterwards and the warnings printed.  It is related to
    [resolve_rec] by [resolve_rec_flatten] below. *)
Fixpoint flatten (depth : nat) (lang_id : string) (visited : gset string)
    : option (scope_map * gset string * list string) :=
  if decide (lang_id ∈ visited) then
    Some (∅, visited, [circular_warning lang_id])
  else
    match L !! lang_id with
    | None => Some (∅, {[lang_id]} ∪ visited, [])
    | Some c =>
        inherited ←
          match extends c with
          | Some parent =>
              match depth with
              | O => None
              | S depth => flatten depth parent ({[lang_id]} ∪ visited)
              end
          | None => Some (∅, {[lang_id]} ∪ visited, [])
          end;
        Some (add_declared c inherited.1.1, inherited.1.2, inherited.2)
    end.

(** The languages that a call may still enter. *)
Definition unvisited (visited : gset string) : gset string := dom L ∖ visited.

(** The resolved scopes of a language, resolved on its own. *)
Definition resolution (lang_id : string) : scope_map :=
  match flatten (size L) lang_id ∅ with
  | Some (r, _, _) => r
  | None => ∅
  end.

End Chain.

(** Printing a list of messages in order. *)
Definition emit (msgs : list string) (self : loader) : loader :=
  foldl (λ s msg, print msg s) self msgs.

(** The loader object after a call of [resolve_rec] that printed [msgs]:
    the document was loaded unless the call stopped at the visited check. *)
Definition after (file : read_result) (lang_id : string) (visited : gset string)
    (msgs : list string) (self : loader) : loader :=
  emit msgs (if decide (lang_id ∈ visited) then self else (load_config file self).2).

(** The cache of a loader is coherent with the configuration it works
    with: either nothing is cached yet, or the cache holds, for exactly the
    configured languages, what [resolve_language_scopes] returns. *)
Definition coherent (file : read_result) (self : loader) : Prop :=
  match _resolved_scopes self with
  | None => True
  | Some cache =>
      ∀ lang_id, cache !! lang_id =
        known_languages file self !! lang_id
          ≫= λ _, resolved_mapping file lang_id self
  end.

(** How two optional node-type lists combine under inheritance. *)
Definition inherit_entry (parent own : option (list string)) : option (list string) :=
  match parent, own with
  | Some p, Some o => Some (p ++ o)
  | Some p, None => Some p
  | None, Some o => Some o
  | None, None => None
  end.

(** *** Configurations used as examples *)

(** A language that extends itself and declares a scope. *)
Definition self_cycle : config :=
  {| languages := Some {[
       "a" := {| extends := Some "a";
                 scopes := Some {[ "func" := ["function_definition"] ]} |} ]} |}.

(** A language that extends itself and declares nothing. *)
Definition bare_cycle : config :=
  {| languages := Some {[ "a" := {| extends := Some "a"; scopes := None |} ]} |}.

(** Two languages that extend each other. *)
Definition two_cycle : config :=
  {| languages := Some (
       <[ "a" := {| extends := Some "b"; scopes := Some {[ "func" := ["fa"] ]} |} ]>
       {[ "b" := {| extends := Some "a"; scopes := Some {[ "func" := ["fb"] ]} |} ]}) |}.

(** TypeScript extending JavaScript, as in the module's example usage. *)
Definition javascript : lang_config :=
  {| extends := None;
     scopes := Some (<[ "func" := ["function_declaration"; "arrow_function"] ]>
                     {[ "class" := ["class_declaration"] ]}) |}.

Definition typescript : lang_config :=
  {| extends := Some "javascript";
     scopes := Some (<[ "func" := ["method_signature"] ]>
                     {[ "interface" := ["interface_declaration"] ]}) |}.

Definition web_config : config :=
  {| languages := Some (<[ "typescript" := typescript ]> {[ "javascript" := javascript ]}) |}.

(** JavaScript with an alias that declares nothing of its own and a
    language whose ['extends'] names a language that is not configured. *)
Definition jsx : lang_config := {| extends := Some "javascript"; scopes := None |}.

Definition vue : lang_config :=
  {| extends := Some "html"; scopes := Some {[ "tag" := ["element"] ]} |}.

Definition alias_config : config :=
  {| languages := Some (<[ "jsx" := jsx ]> (<[ "vue" := vue ]>
                          {[ "javascript" := javascript ]})) |}.

(** The document can be had without printing: it is cached already, or
    the file can be read. *)
Definition available (file : read_result) (self : loader) : Prop :=
  is_Some (_config self) ∨ ∃ c, file = ReadOk c.

End Loader.

(** ** Part II: the permission timeline

    The tag scanner, the span locator and the timeline builder are not
    among the Python sources (which hold the scope loader and fixture
    files), so this part is written from the specification, sections 3,
    4.3, 4.4 and 4.5. *)

Module Timeline.

(** Modelled from the spec: the ActorKey of section 3 (the tag scanner
    that produces it is missing); two keys are equal iff both fields
    are. *)
Record ActorKey := {
  kind : string;
  identifier : option string
}.

(** Modelled from the spec: the Permission of section 3 (the tag scanner
    is missing).  [NoAccess] is the permission the specification calls
    [None]. *)
Inductive Permission := Read | Write | NoAccess | Context.

(** Modelled from the spec: the ScopeSpec of section 3 (the tag scanner
    is missing). *)
Inductive ScopeSpec :=
  | Unbounded
  | LineCount (n : nat)
  | Semantic (name : string).

(** Modelled from the spec: the Anchor of section 3 (the tag scanner is
    missing). *)
Inductive Anchor := StandaloneComment | InlineTrailing.

(** Modelled from the spec: the GuardTag of section 3 (the tag scanner
    is missing). *)
Record GuardTag := {
  line : nat;
  actor : ActorKey;
  permission : Permission;
  scope : ScopeSpec;
  anchor : Anchor
}.

(** Modelled from the spec: the Region of section 3 (the timeline builder
    is missing).  [end_line = None] is the unbounded end; [restores_to]
    links to the region that was current when this one began. *)
Inductive Region := {
  region_permission : Permission;
  start_line : nat;
  end_line : option nat;
  restores_to : option Region
}.

(** Modelled from the spec: the values of a Timeline, section 3 (the
    timeline builder is missing): a permission, or the implicit unguarded
    state. *)
Inductive LineState :=
  | Unguarded
  | Guarded (p : Permission).

#[global] Instance ActorKey_eq_dec : EqDecision ActorKey.
Proof. solve_decision. Defined.

(** Modelled from the spec: what one file-processing pass consumes
    (section 6; scanner and span locator are missing).  [tags] is the
    scanner's output in file order.  [locate] is the semantic span locator
    of section 4.3 with language and syntax tree already supplied: the line
    range of the matched construct, or nothing when unresolved.
    [documentation t l] tells whether line [l] is, for tag [t], a
    documentation line: a comment line of the tag's comment style or a line
    of the doc block that begins after the tag. *)
Record SourceFile := {
  last_line : nat;
  tags : list GuardTag;
  locate : GuardTag → option (nat * nat);
  documentation : GuardTag → nat → bool
}.

(** Modelled from the spec: which tags take the documentation span of
    section 4.3 (the span locator is missing).  Section 4.1 has the
    permission word [context]; section 8 writes the tag as
    [@guard:x:y.context], a scope suffix.  Both forms count. *)
Definition is_context_tag (t : GuardTag) : bool :=
  match permission t, scope t with
  | Context, _ => true
  | _, Semantic name => bool_decide (name = "context")
  | _, _ => false
  end.

Section Builder.

Variable f : SourceFile.

(** Modelled from the spec: the documentation run of section 4.3 (the span
    locator is missing): the number of contiguous documentation lines from
    line [l] on, looking at no more than [remaining] lines.  The run ends
    at the first line that is not documentation; that line is not
    counted. *)
Fixpoint documentation_run (t : GuardTag) (l : nat) (remaining : nat) : nat :=
  match remaining with
  | O => 0
  | S remaining =>
      if documentation f t l then S (documentation_run t (S l) remaining) else 0
  end.

(** Modelled from the spec: the end of a context span, section 4.3 (the
    span locator is missing): the last line of the run that starts
    immediately after the tag line and stays inside the file. *)
Definition context_end (t : GuardTag) : nat :=
  line t + documentation_run t (S (line t)) (last_line f - line t).

(** Modelled from the spec: the resolved end of a tag's span, sections 4.3
    and 4.4 steps 3 and 4 (the span locator and timeline builder are
    missing); [None] is the unbounded end.
    - A context tag ends with its documentation run.
    - [LineCount n] on a standalone tag ends at [L + n], the tag line not
      being counted; on an inline tag the count starts on the tag line.
      The end is clamped to the last line of the file.
    - A semantic tag ends where the located construct ends, and degrades
      to unbounded when the locator finds nothing. *)
Definition span_end (t : GuardTag) : option nat :=
  if is_context_tag t then Some (context_end t)
  else
    match scope t with
    | Unbounded => None
    | LineCount n =>
        let stop :=
          match anchor t with
          | StandaloneComment => line t + n
          | InlineTrailing => line t + n - 1
          end in
        Some (stop `min` last_line f)
    | Semantic _ =>
        match locate f t with
        | Some (_, stop) => Some stop
        | None => None
        end
    end.

(** Modelled from the spec: section 4.4 step 1 (the timeline builder is
    missing): the region a tag creates, remembering the region that was
    current before it. *)
Definition region_of (t : GuardTag) (current : option Region) : Region :=
  {| region_permission := permission t;
     start_line := line t;
     end_line := span_end t;
     restores_to := current |}.

(** Modelled from the spec: section 4.4 step 2 (the timeline builder is
    missing): the new region becomes current. *)
Definition push (current : option Region) (t : GuardTag) : option Region :=
  Some (region_of t current).

(** Modelled from the spec: the pop of section 4.4 (the timeline builder is
    missing): at line [l], while the end of the current region has been
    passed, the current region becomes the one it restores to. *)
Fixpoint pop_region (l : nat) (r : Region) : option Region :=
  match r with
  | Build_Region _ _ (Some stop) restores =>
      if stop <? l then
        match restores with
        | Some r' => pop_region l r'
        | None => None
        end
      else Some r
  | Build_Region _ _ None _ => Some r
  end.

Definition pop (l : nat) (current : option Region) : option Region :=
  current ≫= pop_region l.

(** Modelled from the spec: the partition by actor key of section 4.4
    (the timeline builder is missing): the tags of one actor on one line,
    in source order. *)
Definition tags_at (a : ActorKey) (l : nat) : list GuardTag :=
  filter (λ t, actor t = a ∧ line t = l) (tags f).

(** Modelled from the spec: one line of the pass of section 4.4 for one
    actor (the timeline builder is missing): the pops that are due, then
    a push for each tag of the line. *)
Definition advance (a : ActorKey) (l : nat) (current : option Region) : option Region :=
  foldl push (pop l current) (tags_at a l).

(** Modelled from the spec: the single pass of section 4.4 over the lines
    1, 2, ... up to [l] (the timeline builder is missing), giving the
    current region of actor [a] at line [l]; before the first line there
    is none. *)
Fixpoint current_region (a : ActorKey) (l : nat) : option Region :=
  match l with
  | O => None
  | S l' => advance a l (current_region a l')
  end.

(** Modelled from the spec: the Timeline of section 3 and the output rule
    of section 4.4 (the timeline builder is missing). *)
Definition timeline (a : ActorKey) (l : nat) : LineState :=
  match current_region a l with
  | Some r => Guarded (region_permission r)
  | None => Unguarded
  end.

End Builder.

(** Modelled from the spec: [permission_at] of the query facade, section
    4.5 (the facade is missing). *)
Definition permission_at (f : SourceFile) (a : ActorKey) (l : nat) : LineState :=
  timeline f a l.

(** The state of actor [a] at line [l] once the pops due at that line are
    applied and before the tags of the line are pushed. *)
Definition state_before (f : SourceFile) (a : ActorKey) (l : nat) : option Region :=
  pop l (current_region f a (pred l)).

(** The line state that a machine state shows. *)
Definition shown (current : option Region) : LineState :=
  match current with
  | Some r => Guarded (region_permission r)
  | None => Unguarded
  end.

(** The number of regions stacked in a state. *)
Fixpoint region_depth (r : Region) : nat :=
  match r with
  | Build_Region _ _ _ (Some r') => S (region_depth r')
  | Build_Region _ _ _ None => 1
  end.

Definition depth (current : option Region) : nat :=
  match current with
  | Some r => region_depth r
  | None => 0
  end.

(** *** Fixtures *)

Definition ai : ActorKey := {| kind := "ai"; identifier := None |}.
Definition human : ActorKey := {| kind := "human"; identifier := None |}.
Definition internal : ActorKey := {| kind := "internal"; identifier := None |}.
Definition sensitive : ActorKey := {| kind := "sensitive"; identifier := None |}.

Definition standalone (l : nat) (a : ActorKey) (p : Permission) (s : ScopeSpec) : GuardTag :=
  {| line := l; actor := a; permission := p; scope := s; anchor := StandaloneComment |}.

(** The end-to-end scenario of the specification: six lines,
    [# @guard:ai:w] on line 1 and [# @guard:ai:r.2] on line 3. *)
Definition scenario : SourceFile :=
  {| last_line := 6;
     tags := [standalone 1 ai Write Unbounded; standalone 3 ai Read (LineCount 2)];
     locate := λ _, None;
     documentation := λ _ _, false |}.

(** tests/test-block-scope-issue.py: two [@guard:human:r.block] tags on
    lines 7 and 14, before the dictionary blocks of lines 8-12 and 15-19. *)
Definition block_scope_issue : SourceFile :=
  {| last_line := 26;
     tags := [standalone 7 human Read (Semantic "block");
              standalone 14 human Read (Semantic "block")];
     locate := λ t,
       if decide (line t = 7) then Some (8, 12)
       else if decide (line t = 14) then Some (15, 19)
       else None;
     documentation := λ _ _, false |}.

(** tests/line-count/final-python-test.py: [r.3] on line 6, [w.2] on line
    12, [n.1] on line 17, nineteen lines. *)
Definition final_python_test : SourceFile :=
  {| last_line := 19;
     tags := [standalone 6 ai Read (LineCount 3);
              standalone 12 ai Write (LineCount 2);
              standalone 17 ai NoAccess (LineCount 1)];
     locate := λ _, None;
     documentation := λ _ _, false |}.

(** [@guard:ai:n.3] two lines before the end of a five-line file. *)
Definition near_end_of_file : SourceFile :=
  {| last_line := 5;
     tags := [standalone 3 ai NoAccess (LineCount 3)];
     locate := λ _, None;
     documentation := λ _ _, false |}.

(** tests/guard-tags/test-context-guards.py: [read.context] on line 3
    before the comments of lines 4-6 and the [def] of line 7;
    [none.context] on line 11 before the docstring of lines 12-18 and the
    [def] of line 19. *)
Definition context_guards : SourceFile :=
  {| last_line := 57;
     tags := [standalone 3 internal Read (Semantic "context");
              standalone 11 sensitive NoAccess (Semantic "context")];
     locate := λ _, None;
     documentation := λ t l,
       if decide (line t = 3) then bool_decide (4 ≤ l ≤ 6)
       else if decide (line t = 11) then bool_decide (12 ≤ l ≤ 18)
       else false |}.

End Timeline.

(** * Facts about [LanguageScopeLoader] *)

Module LoaderFacts.
Import Loader.

(** ** The two dictionary loops *)

Lemma copy_scopes_id (m : scope_map) : copy_scopes m = m.
Proof.
  unfold copy_scopes.
  apply (map_fold_weak_ind (λ r m, r = m)); [done|].
  intros i x m' r _ ->. done.
Qed.

Lemma apply_scope_lookup key values (scopes : scope_map) name :
  apply_scope key values scopes !! name =
    if decide (key = name)
    then Some (default [] (scopes !! key) ++ values)
    else scopes !! name.
Proof.
  unfold apply_scope.
  destruct (scopes !! key) eqn:E; case_decide; subst; simplify_map_eq; done.
Qed.

Lemma apply_scopes_lookup (own scopes : scope_map) name :
  apply_scopes own scopes !! name = inherit_entry (scopes !! name) (own !! name).
Proof.
  unfold apply_scopes.
  apply (map_fold_weak_ind
    (λ r m, r !! name = inherit_entry (scopes !! name) (m !! name))).
  - rewrite lookup_empty. by destruct (scopes !! name).
  - intros i x m r Hi IH. rewrite apply_scope_lookup.
    case_decide as Hk.
    + subst i. rewrite lookup_insert_eq. rewrite Hi in IH.
      rewrite IH. by destruct (scopes !! name).
    + by rewrite lookup_insert_ne.
Qed.

Lemma apply_scopes_empty (own : scope_map) : apply_scopes own ∅ = own.
Proof.
  apply map_eq. intros name. rewrite apply_scopes_lookup, lookup_empty.
  by destruct (own !! name).
Qed.

(** ** The loader object *)

Section Facts.

Variable file : read_result.

Lemma known_languages_load self :
  known_languages file (load_config file self).2 = known_languages file self.
Proof.
  unfold known_languages, load_config.
  destruct (_config self) eqn:E; simpl; [by rewrite E|].
  destruct file; simpl; [done|by rewrite E].
Qed.

Lemma known_languages_print msg self :
  known_languages file (print msg self) = known_languages file self.
Proof.
  unfold known_languages, load_config. simpl.
  destruct (_config self); [done|]. by destruct file.
Qed.

Lemma emit_cons msg msgs self : emit (msg :: msgs) self = emit msgs (print msg self).
Proof. reflexivity. Qed.

Lemma known_languages_emit msgs self :
  known_languages file (emit msgs self) = known_languages file self.
Proof.
  revert self. induction msgs as [|m msgs IH]; intros self; [done|].
  by rewrite emit_cons, IH, known_languages_print.
Qed.

Lemma known_languages_set_resolved r self :
  known_languages file (set_resolved_scopes r self) = known_languages file self.
Proof.
  unfold known_languages, load_config. simpl.
  destruct (_config self); [done|]. by destruct file.
Qed.

(** Once a language is known, the document is available without reading
    or printing again. *)
Lemma load_config_settled self lang_id c :
  known_languages file self !! lang_id = Some c →
  load_config file (load_config file self).2 = load_config file self.
Proof.
  unfold known_languages, load_config.
  destruct (_config self) eqn:E; simpl; [by rewrite E|].
  destruct file; simpl; [done|].
  by rewrite lookup_empty.
Qed.

Lemma stdout_emit msgs self : stdout (emit msgs self) = stdout self ++ msgs.
Proof.
  revert self. induction msgs as [|m msgs IH]; intros self.
  - by rewrite app_nil_r.
  - rewrite emit_cons, IH. simpl. by rewrite <- app_assoc.
Qed.

Lemma resolved_scopes_emit msgs self :
  _resolved_scopes (emit msgs self) = _resolved_scopes self.
Proof.
  revert self. induction msgs as [|m msgs IH]; intros self; [done|].
  by rewrite emit_cons, IH.
Qed.

Lemma resolved_scopes_load self :
  _resolved_scopes (load_config file self).2 = _resolved_scopes self.
Proof.
  unfold load_config. destruct (_config self); [done|by destruct file].
Qed.

(** [resolve_rec] is [flatten] on the known languages, plus bookkeeping on
    the loader object. *)
Lemma resolve_rec_flatten depth lang_id visited self :
  resolve_rec file depth lang_id visited self =
    (λ x, (x.1.1, x.1.2, after file lang_id visited x.2 self))
      <$> flatten (known_languages file self) depth lang_id visited.
Proof.
  revert lang_id visited self.
  induction depth as [|depth IH]; intros lang_id visited self.
  all: unfold after; simpl; (case_decide as Hv; [done|]).
  all: destruct (load_config file self) as [cfg self1] eqn:Hload; simpl.
  all: assert (known_languages file self = default ∅ (languages cfg)) as HL
         by (unfold known_languages; by rewrite Hload).
  all: rewrite <- HL.
  all: destruct (known_languages file self !! lang_id) as [c|] eqn:Hc; [|done].
  all: destruct (extends c) as [p|]; simpl; [|done].
  - done.
  - rewrite IH.
    assert (known_languages file self1 = known_languages file self) as ->.
    { replace self1 with (load_config file self).2 by (by rewrite Hload).
      apply known_languages_load. }
    assert ((load_config file self1).2 = self1) as Hs.
    { pose proof (load_config_settled self lang_id c Hc) as H.
      rewrite Hload in H. simpl in H. by rewrite H. }
    unfold after. rewrite Hs.
    destruct (flatten _ depth p _) as [[[r V] w]|]; simpl; [|done].
    rewrite copy_scopes_id. unfold add_declared.
    by destruct (decide (p ∈ {[lang_id]} ∪ visited)).
Qed.

End Facts.

(** ** The resolution proper *)

Section Flatten.

Variable L : gmap string lang_config.

Lemma flatten_visited depth lang_id visited :
  lang_id ∈ visited →
  flatten L depth lang_id visited = Some (∅, visited, [circular_warning lang_id]).
Proof. intros Hv. destruct depth; simpl; by rewrite decide_True. Qed.

Lemma flatten_unknown depth lang_id visited :
  lang_id ∉ visited → L !! lang_id = None →
  flatten L depth lang_id visited = Some (∅, {[lang_id]} ∪ visited, []).
Proof.
  intros Hv Hc. destruct depth; simpl; rewrite decide_False by done; by rewrite Hc.
Qed.

Lemma flatten_root depth lang_id visited c :
  lang_id ∉ visited → L !! lang_id = Some c → extends c = None →
  flatten L depth lang_id visited =
    Some (add_declared c ∅, {[lang_id]} ∪ visited, []).
Proof.
  intros Hv Hc He.
  destruct depth; simpl; rewrite decide_False by done; by rewrite Hc, He.
Qed.

(** The recursive case: the language is added to the visited set before the
    parent is resolved, with one nested call less allowed. *)
Lemma flatten_child depth lang_id visited c parent :
  lang_id ∉ visited → L !! lang_id = Some c → extends c = Some parent →
  flatten L (S depth) lang_id visited =
    (λ x, (add_declared c x.1.1, x.1.2, x.2))
      <$> flatten L depth parent ({[lang_id]} ∪ visited).
Proof.
  intros Hv Hc He. simpl. rewrite decide_False by done. rewrite Hc, He. simpl.
  by destruct (flatten L depth parent _).
Qed.

Lemma flatten_child_exhausted lang_id visited c parent :
  lang_id ∉ visited → L !! lang_id = Some c → extends c = Some parent →
  flatten L 0 lang_id visited = None.
Proof. intros Hv Hc He. simpl. rewrite decide_False by done. by rewrite Hc, He. Qed.

Lemma unvisited_shrinks lang_id visited c :
  lang_id ∉ visited → L !! lang_id = Some c →
  size (unvisited L ({[lang_id]} ∪ visited)) < size (unvisited L visited).
Proof.
  intros Hv Hc. apply subset_size. unfold unvisited.
  assert (lang_id ∈ dom L) by (apply elem_of_dom; eauto).
  set_solver.
Qed.

(** Termination: the nested calls never outnumber the unvisited languages. *)
Lemma flatten_total depth lang_id visited :
  size (unvisited L visited) ≤ depth →
  is_Some (flatten L depth lang_id visited).
Proof.
  revert lang_id visited.
  induction depth as [|depth IH]; intros lang_id visited Hsz.
  all: destruct (decide (lang_id ∈ visited)) as [Hv|Hv];
    [rewrite flatten_visited by done; eauto|].
  all: destruct (L !! lang_id) as [c|] eqn:Hc;
    [|rewrite flatten_unknown by done; eauto].
  all: destruct (extends c) as [p|] eqn:He;
    [|erewrite flatten_root by done; eauto].
  - pose proof (unvisited_shrinks lang_id visited c Hv Hc). lia.
  - erewrite flatten_child by done.
    pose proof (unvisited_shrinks lang_id visited c Hv Hc).
    destruct (IH p ({[lang_id]} ∪ visited)) as [x ->]; [lia|]. simpl. eauto.
Qed.

(** A larger allowance does not change a result. *)
Lemma flatten_mono depth depth' lang_id visited x :
  flatten L depth lang_id visited = Some x → depth ≤ depth' →
  flatten L depth' lang_id visited = Some x.
Proof.
  revert depth' lang_id visited x.
  induction depth as [|depth IH]; intros depth' lang_id visited x Hx Hle.
  all: destruct (decide (lang_id ∈ visited)) as [Hv|Hv];
    [rewrite flatten_visited in * by done; done|].
  all: destruct (L !! lang_id) as [c|] eqn:Hc;
    [|rewrite flatten_unknown in * by done; done].
  all: destruct (extends c) as [p|] eqn:He;
    [|erewrite flatten_root in * by done; done].
  - erewrite flatten_child_exhausted in Hx by done. done.
  - destruct depth' as [|depth']; [lia|].
    erewrite flatten_child in * by done.
    destruct (flatten L depth p _) as [y|] eqn:Hy; [|done].
    erewrite IH by first [done|lia]. done.
Qed.

Lemma flatten_visited_grows depth lang_id visited r visited' msgs :
  flatten L depth lang_id visited = Some (r, visited', msgs) →
  visited ⊆ visited' ∧ lang_id ∈ visited'.
Proof.
  revert lang_id visited r visited' msgs.
  induction depth as [|depth IH]; intros lang_id visited r visited' msgs Hx.
  all: destruct (decide (lang_id ∈ visited)) as [Hv|Hv];
    [rewrite flatten_visited in * by done; simplify_eq; set_solver|].
  all: destruct (L !! lang_id) as [c|] eqn:Hc;
    [|rewrite flatten_unknown in * by done; simplify_eq; set_solver].
  all: destruct (extends c) as [p|] eqn:He;
    [|erewrite flatten_root in * by done; simplify_eq; set_solver].
  - erewrite flatten_child_exhausted in Hx by done. done.
  - erewrite flatten_child in Hx by done.
    destruct (flatten L depth p _) as [[[r1 V1] w1]|] eqn:Hy; [|done].
    simpl in Hx. simplify_eq. apply IH in Hy. set_solver.
Qed.

(** *** Ancestors *)

Lemma ancestor_S k lang_id c parent :
  L !! lang_id = Some c → extends c = Some parent →
  ancestor L (S k) lang_id = ancestor L k parent.
Proof. intros Hc He. simpl. unfold parent_of. rewrite Hc. simpl. by rewrite He. Qed.

Lemma ancestor_S_inv k lang_id x :
  ancestor L (S k) lang_id = Some x →
  ∃ c parent, L !! lang_id = Some c ∧ extends c = Some parent
              ∧ ancestor L k parent = Some x.
Proof.
  simpl. unfold parent_of. intros H.
  destruct (L !! lang_id) as [c|]; [|done]. simpl in H.
  destruct (extends c) as [p|] eqn:He; [|done]. simpl in H.
  exists c, p. done.
Qed.

Lemma ancestor_add j k lang_id :
  ancestor L (j + k) lang_id = ancestor L j lang_id ≫= ancestor L k.
Proof.
  revert lang_id. induction j as [|j IH]; intros lang_id; [done|].
  simpl. destruct (parent_of L lang_id) as [p|]; [|done]. simpl. apply IH.
Qed.

(** *** The visited set matters only on the ancestors *)

Lemma flatten_agree depth lang_id V1 V2 :
  (∀ k x, ancestor L k lang_id = Some x → x ∈ V1 ↔ x ∈ V2) →
  (λ x, x.1.1) <$> flatten L depth lang_id V1
  = (λ x, x.1.1) <$> flatten L depth lang_id V2.
Proof.
  revert lang_id V1 V2.
  induction depth as [|depth IH]; intros lang_id V1 V2 Hagree.
  all: pose proof (Hagree 0 lang_id eq_refl) as Hself.
  all: destruct (decide (lang_id ∈ V1)) as [Hv|Hv];
    [rewrite !flatten_visited by tauto; done|].
  all: assert (lang_id ∉ V2) as Hv2 by tauto.
  all: destruct (L !! lang_id) as [c|] eqn:Hc;
    [|rewrite !flatten_unknown by done; done].
  all: destruct (extends c) as [p|] eqn:He;
    [|erewrite !flatten_root by done; done].
  - by erewrite !flatten_child_exhausted by done.
  - erewrite !flatten_child by done.
    assert ((λ x, x.1.1) <$> flatten L depth p ({[lang_id]} ∪ V1)
            = (λ x, x.1.1) <$> flatten L depth p ({[lang_id]} ∪ V2)) as Hrec.
    { apply IH. intros k x Hk.
      rewrite <- (ancestor_S k lang_id c p Hc He) in Hk.
      apply Hagree in Hk. set_solver. }
    destruct (flatten L depth p ({[lang_id]} ∪ V1)) as [y1|],
             (flatten L depth p ({[lang_id]} ∪ V2)) as [y2|];
      simpl in *; congruence.
Qed.

(** *** A chain that runs into the visited set

    If the [j]-th ancestor is the first one already visited and the
    languages before it are pairwise distinct, the call merges the lineage
    of length [j] and prints one warning, naming that ancestor. *)
Lemma flatten_revisit j depth lang_id visited t :
  ancestor L j lang_id = Some t → t ∈ visited →
  (∀ i x, i < j → ancestor L i lang_id = Some x → x ∉ visited) →
  (∀ i i' x, i < j → i' < j →
     ancestor L i lang_id = Some x → ancestor L i' lang_id = Some x → i = i') →
  j ≤ depth →
  ∃ visited',
    flatten L depth lang_id visited =
      Some (merge_lineage (lineage L j lang_id), visited', [circular_warning t]).
Proof.
  revert depth lang_id visited.
  induction j as [|j IH]; intros depth lang_id visited Ht Hin Hfresh Hdistinct Hle.
  - simpl in Ht. simplify_eq. rewrite flatten_visited by done. eauto.
  - pose proof (Hfresh 0 lang_id ltac:(lia) eq_refl) as Hv.
    destruct (ancestor_S_inv _ _ _ Ht) as (c & p & Hc & He & Hp).
    destruct depth as [|depth]; [lia|].
    erewrite flatten_child by done.
    destruct (IH depth p ({[lang_id]} ∪ visited)) as [V' ->].
    + done.
    + set_solver.
    + intros i x Hi Hx.
      rewrite <- (ancestor_S i lang_id c p Hc He) in Hx.
      pose proof (Hfresh (S i) x ltac:(lia) Hx).
      assert (x ≠ lang_id).
      { intros ->. pose proof (Hdistinct (S i) 0 lang_id ltac:(lia) ltac:(lia) Hx eq_refl).
        lia. }
      set_solver.
    + intros i i' x Hi Hi' Hx Hx'.
      rewrite <- (ancestor_S i lang_id c p Hc He) in Hx.
      rewrite <- (ancestor_S i' lang_id c p Hc He) in Hx'.
      pose proof (Hdistinct (S i) (S i') x ltac:(lia) ltac:(lia) Hx Hx'). lia.
    + lia.
    + simpl. rewrite Hc, He. eauto.
Qed.

(** A language on a cycle, with [k] the length of the cycle: the call
    merges the [k] languages of the cycle and warns about the language
    itself. *)
Lemma flatten_cycle k lang_id :
  0 < k → ancestor L k lang_id = Some lang_id →
  (∀ j, 0 < j < k → ancestor L j lang_id ≠ Some lang_id) →
  ∃ visited',
    flatten L (size L) lang_id ∅ =
      Some (merge_lineage (lineage L k lang_id), visited', [circular_warning lang_id]).
Proof.
  intros Hk Hcyc Hmin.
  destruct k as [|k]; [lia|].
  destruct (ancestor_S_inv _ _ _ Hcyc) as (c & p & Hc & He & Hp).
  assert (∀ i x, i < k → ancestor L i p = Some x → x ≠ lang_id) as Hfresh.
  { intros i x Hi Hx ->.
    rewrite <- (ancestor_S i lang_id c p Hc He) in Hx.
    by apply (Hmin (S i) ltac:(lia)). }
  assert (∀ i i' x, i < i' → i' < k →
            ancestor L i p = Some x → ancestor L i' p = Some x → False) as Hlt.
  { intros i i' x Hii Hi' Hx Hx'.
    assert (ancestor L (k - i') x = Some lang_id) as Hrest.
    { replace k with (i' + (k - i')) in Hp by lia.
      rewrite ancestor_add, Hx' in Hp. done. }
    assert (ancestor L (i + (k - i')) p = Some lang_id) as Hshort.
    { by rewrite ancestor_add, Hx. }
    apply (Hfresh (i + (k - i')) lang_id); [lia|done|done]. }
  assert (k ≤ size (unvisited L {[lang_id]})) as Hroom.
  { (* the k languages p, parent of p, ... are distinct, known and not lang_id *)
    clear Hcyc Hmin.
    assert (∀ n, n ≤ k → ∃ X : gset string,
              size X = n ∧ X ⊆ unvisited L {[lang_id]}
              ∧ ∀ x, x ∈ X ↔ ∃ i, i < n ∧ ancestor L i p = Some x) as Hsets.
    { induction n as [|n IHn]; intros Hn.
      - exists ∅. split_and!; [done|set_solver|].
        intros x. split; [set_solver|]. intros (i & ? & _). lia.
      - destruct IHn as (X & Hsz & Hsub & HX); [lia|].
        assert (is_Some (ancestor L n p)) as [y Hy].
        { replace k with (n + (k - n)) in Hp by lia.
          rewrite ancestor_add in Hp.
          destruct (ancestor L n p); [eauto|done]. }
        assert (y ∉ X) as HyX.
        { rewrite HX. intros (i & Hi & Hiy). eapply (Hlt i n y); [lia|lia|done|done]. }
        assert (y ∈ dom L) as Hydom.
        { destruct (decide (n < k - 0)) as [Hnk|Hnk]; [|lia].
          replace k with (n + S (k - S n)) in Hp by lia.
          rewrite ancestor_add, Hy in Hp. simpl in Hp.
          destruct (ancestor_S_inv _ _ _ Hp) as (cy & ? & Hcy & _).
          apply elem_of_dom. eauto. }
        exists ({[y]} ∪ X). split_and!.
        + rewrite size_union by set_solver. rewrite size_singleton. lia.
        + pose proof (Hfresh n y ltac:(lia) Hy). unfold unvisited in *. set_solver.
        + intros x. rewrite elem_of_union, elem_of_singleton, HX. split.
          * intros [->|(i & Hi & Hx)]; [exists n; split; [lia|done]|exists i; split; [lia|done]].
          * intros (i & Hi & Hx). destruct (decide (i = n)) as [->|Hne].
            -- left. congruence.
            -- right. exists i. split; [lia|done]. }
    destruct (Hsets k ltac:(lia)) as (X & Hsz & Hsub & _).
    rewrite <- Hsz. by apply subseteq_size. }
  assert (size (unvisited L {[lang_id]}) < size L) as Hsmall.
  { pose proof (unvisited_shrinks lang_id ∅ c ltac:(set_solver) Hc) as H.
    replace (unvisited L ({[lang_id]} ∪ ∅)) with (unvisited L {[lang_id]}) in H
      by (f_equal; set_solver).
    replace (size (unvisited L ∅)) with (size L) in H; [done|].
    unfold unvisited. rewrite <- size_dom. f_equal. set_solver. }
  destruct (size L) as [|n] eqn:Hn; [lia|].
  erewrite flatten_child by first [done|set_solver].
  destruct (flatten_revisit k n p ({[lang_id]} ∪ ∅) lang_id) as [V' ->].
  - done.
  - set_solver.
  - intros i x Hi Hx. pose proof (Hfresh i x Hi Hx). set_solver.
  - intros i i' x Hi Hi' Hx Hx'.
    destruct (decide (i = i')) as [|Hne]; [done|exfalso].
    destruct (decide (i < i')).
    + eapply (Hlt i i'); [lia|lia|done|done].
    + eapply (Hlt i' i); [lia|lia|done|done].
  - lia.
  - simpl. rewrite Hc, He. eauto.
Qed.

End Flatten.

(** ** The public methods *)

Section Methods.

Variable file : read_result.

Lemma unvisited_size (L : gmap string lang_config) visited :
  size (unvisited L visited) ≤ size L.
Proof.
  rewrite <- (size_dom (D := gset string)). apply subseteq_size.
  unfold unvisited. set_solver.
Qed.

Lemma resolve_language_scopes_flatten lang_id visited self :
  resolve_language_scopes file lang_id visited self =
    (λ x, (x.1.1, x.1.2, after file lang_id (default ∅ visited) x.2 self))
      <$> flatten (known_languages file self) (size (known_languages file self))
            lang_id (default ∅ visited).
Proof. apply resolve_rec_flatten. Qed.

Lemma known_languages_after lang_id visited msgs self :
  known_languages file (after file lang_id visited msgs self)
  = known_languages file self.
Proof.
  unfold after. rewrite known_languages_emit.
  case_decide; [done|apply known_languages_load].
Qed.

Lemma resolved_scopes_after lang_id visited msgs self :
  _resolved_scopes (after file lang_id visited msgs self) = _resolved_scopes self.
Proof.
  unfold after. rewrite resolved_scopes_emit.
  case_decide; [done|apply resolved_scopes_load].
Qed.

(** A resolution from a fresh visited set always returns, with the
    resolved scopes of the language. *)
Lemma resolve_language_scopes_fresh lang_id self :
  ∃ visited' msgs,
    resolve_language_scopes file lang_id None self =
      Some (resolution (known_languages file self) lang_id, visited',
            after file lang_id ∅ msgs self).
Proof.
  rewrite resolve_language_scopes_flatten. unfold resolution. simpl.
  destruct (flatten_total (known_languages file self)
              (size (known_languages file self)) lang_id ∅) as [[[r V] w] ->].
  - apply unvisited_size.
  - simpl. eauto.
Qed.

Lemma resolved_mapping_resolution lang_id self :
  resolved_mapping file lang_id self
  = Some (resolution (known_languages file self) lang_id).
Proof.
  unfold resolved_mapping.
  destruct (resolve_language_scopes_fresh lang_id self) as (V & w & ->). done.
Qed.

(** The cache built by the loop of [get_all_scopes]. *)
Lemma foldl_insert_lookup {A} (f : string → A) (ids : list string)
    (m : gmap string A) (k : string) :
  foldl (λ acc id, <[id := f id]> acc) m ids !! k =
    if decide (k ∈ ids) then Some (f k) else m !! k.
Proof.
  revert m. induction ids as [|id ids IH]; intros m.
  - destruct (decide (k ∈ [])) as [Hin|_]; [|done].
    by apply not_elem_of_nil in Hin.
  - change (foldl (λ acc id, <[id := f id]> acc) m (id :: ids))
      with (foldl (λ acc id, <[id := f id]> acc) (<[id := f id]> m) ids).
    rewrite IH. destruct (decide (k ∈ ids)) as [Hin|Hin].
    + rewrite decide_True; [done|]. rewrite elem_of_cons. tauto.
    + destruct (decide (k = id)) as [->|Hne].
      * rewrite decide_True by (rewrite elem_of_cons; tauto).
        by rewrite lookup_insert_eq.
      * rewrite decide_False.
        -- by rewrite lookup_insert_ne.
        -- rewrite elem_of_cons. tauto.
Qed.

Lemma resolve_each_spec lang_ids self cache :
  _resolved_scopes self = Some cache →
  ∃ self',
    resolve_each file lang_ids self = Some self'
    ∧ known_languages file self' = known_languages file self
    ∧ _resolved_scopes self' =
        Some (foldl (λ acc id, <[id := resolution (known_languages file self) id]> acc)
                cache lang_ids).
Proof.
  revert self cache. induction lang_ids as [|id ids IH]; intros self cache Hcache.
  - exists self. done.
  - destruct (resolve_language_scopes_fresh id self) as (V & w & Hres).
    simpl. rewrite Hres. simpl.
    set (self1 := after file id ∅ w self).
    assert (known_languages file self1 = known_languages file self) as HL
      by apply known_languages_after.
    assert (_resolved_scopes self1 = Some cache) as Hc1
      by (unfold self1; by rewrite resolved_scopes_after).
    rewrite Hc1. simpl.
    edestruct (IH (set_resolved_scopes
                     (<[id := resolution (known_languages file self) id]> cache) self1))
      as (self' & Hrun & HL' & Hc'); [done|].
    exists self'. rewrite Hrun. split_and!; [done| |].
    + by rewrite HL', known_languages_set_resolved.
    + rewrite Hc', known_languages_set_resolved, HL. done.
Qed.

(** [get_all_scopes] always returns; it leaves the returned table in the
    cache, and a table computed by it holds the resolution of each
    configured language and nothing else. *)
Lemma get_all_scopes_spec self :
  ∃ all_scopes self',
    get_all_scopes file self = Some (all_scopes, self')
    ∧ _resolved_scopes self' = Some all_scopes
    ∧ known_languages file self' = known_languages file self
    ∧ match _resolved_scopes self with
      | Some cache => all_scopes = cache ∧ self' = self
      | None =>
          ∀ lang_id, all_scopes !! lang_id =
            (λ _, resolution (known_languages file self) lang_id)
              <$> (known_languages file self !! lang_id)
      end.
Proof.
  unfold get_all_scopes.
  destruct (_resolved_scopes self) as [cache|] eqn:Hcache.
  { exists cache, self. done. }
  destruct (load_config file self) as [cfg self0] eqn:Hload.
  assert (known_languages file self = default ∅ (languages cfg)) as HL
    by (unfold known_languages; by rewrite Hload).
  assert (known_languages file self0 = known_languages file self) as HL0.
  { replace self0 with (load_config file self).2 by (by rewrite Hload).
    apply known_languages_load. }
  rewrite <- HL.
  edestruct (resolve_each_spec (map_to_list (known_languages file self)).*1
               (set_resolved_scopes ∅ self0) ∅) as (self' & Hrun & HL' & Hc');
    [done|].
  rewrite Hrun. simpl. rewrite Hc'. simpl.
  eexists _, self'. split_and!; [done|done| |].
  - by rewrite HL', known_languages_set_resolved.
  - intros lang_id. rewrite foldl_insert_lookup.
    rewrite known_languages_set_resolved, HL0, lookup_empty.
    destruct (known_languages file self !! lang_id) as [c|] eqn:Hc; simpl.
    + rewrite decide_True; [done|].
      apply list_elem_of_fmap. exists (lang_id, c). split; [done|].
      by apply elem_of_map_to_list.
    + rewrite decide_False; [done|].
      intros ([k c] & -> & Hin)%list_elem_of_fmap.
      apply elem_of_map_to_list in Hin. simpl in Hc. congruence.
Qed.

Lemma get_all_scopes_coherent self all_scopes self' :
  coherent file self →
  get_all_scopes file self = Some (all_scopes, self') →
  coherent file self'.
Proof.
  intros Hco Hget.
  destruct (get_all_scopes_spec self) as (m & s & Hrun & Hc & HL & Hcase).
  rewrite Hget in Hrun. simplify_eq.
  unfold coherent in *. rewrite Hc.
  destruct (_resolved_scopes self) as [cache|].
  - destruct Hcase as [-> ->]. done.
  - intros lang_id. rewrite Hcase, HL, resolved_mapping_resolution, HL.
    by destruct (known_languages file self !! lang_id).
Qed.

(** On an empty cache, [get_language_scopes] returns what
    [resolve_language_scopes] returns, for a configured language. *)
Lemma get_all_scopes_first self lang_id :
  _resolved_scopes self = None →
  ∃ all_scopes self',
    get_all_scopes file self = Some (all_scopes, self')
    ∧ all_scopes !! lang_id =
        known_languages file self !! lang_id
          ≫= λ _, resolved_mapping file lang_id self.
Proof.
  intros Hnone.
  destruct (get_all_scopes_spec self) as (m & s & Hrun & _ & _ & Hcase).
  rewrite Hnone in Hcase. exists m, s. split; [done|].
  rewrite Hcase, resolved_mapping_resolution.
  by destruct (known_languages file self !! lang_id).
Qed.

End Methods.

(** ** Inheritance *)

Lemma add_declared_lookup c (inherited : scope_map) name :
  add_declared c inherited !! name =
    inherit_entry (inherited !! name) (default ∅ (scopes c) !! name).
Proof.
  unfold add_declared. destruct (scopes c) as [own|]; simpl.
  - apply apply_scopes_lookup.
  - rewrite lookup_empty. by destruct (inherited !! name).
Qed.

Lemma least_period (L : gmap string lang_config) lang_id k :
  0 < k → ancestor L k lang_id = Some lang_id →
  ∃ k', 0 < k' ≤ k ∧ ancestor L k' lang_id = Some lang_id
        ∧ ∀ j, 0 < j < k' → ancestor L j lang_id ≠ Some lang_id.
Proof.
  assert (∀ n, (∀ j, 0 < j < n → ancestor L j lang_id ≠ Some lang_id)
               ∨ (∃ j, 0 < j < n ∧ ancestor L j lang_id = Some lang_id)) as Hscan.
  { induction n as [|n [Hnone|(j & Hj & Hp)]].
    - left. intros j Hj. lia.
    - destruct (decide (0 < n ∧ ancestor L n lang_id = Some lang_id)) as [[Hn Hp]|Hno].
      + right. exists n. split; [lia|done].
      + left. intros j Hj. destruct (decide (j = n)) as [->|Hne].
        * intros Hp. apply Hno. split; [lia|done].
        * apply Hnone. lia.
    - right. exists j. split; [lia|done]. }
  induction k as [k IH] using lt_wf_ind. intros Hk Hp.
  destruct (Hscan k) as [Hnone|(j & Hj & Hpj)].
  - exists k. split_and!; [lia|lia|done|done].
  - destruct (IH j) as (k' & Hk' & Hpk' & Hmin); [lia|lia|done|].
    exists k'. split_and!; [lia|lia|done|done].
Qed.

(** ** Unknown languages *)

(** C7. For every language id absent from the loaded configuration,
    [resolve_language_scopes] returns the empty mapping (it returns: no
    error, no exhausted recursion), whatever visited set it is given. *)
Theorem unknown_language_resolves_empty file self lang_id visited :
  known_languages file self !! lang_id = None →
  ∃ visited' self',
    resolve_language_scopes file lang_id visited self = Some (∅, visited', self').
Proof.
  intros Hunknown. rewrite resolve_language_scopes_flatten.
  destruct (decide (lang_id ∈ default ∅ visited)) as [Hv|Hv].
  - rewrite flatten_visited by done. simpl. eauto.
  - rewrite flatten_unknown by done. simpl. eauto.
Qed.

Lemma unknown_language_resolves_empty_witness :
  known_languages (ReadOk web_config) init !! "cobol" = None
  ∧ ∃ visited' self',
      resolve_language_scopes (ReadOk web_config) "cobol" None init
      = Some (∅, visited', self').
Proof.
  split; [reflexivity|].
  apply (unknown_language_resolves_empty (ReadOk web_config) init "cobol" None).
  reflexivity.
Defined.

(** When the file cannot be read, every language is unknown. *)
Lemma known_languages_unreadable e : known_languages (ReadError e) init = ∅.
Proof. reflexivity. Qed.

(** X16. The cached accessor has no entry for an unknown language: on a
    coherent loader it answers Python's [None], again without failing. *)
Lemma get_language_scopes_unknown file self lang_id :
  coherent file self →
  known_languages file self !! lang_id = None →
  ∃ self', get_language_scopes file lang_id self = Some (None, self').
Proof.
  intros Hco Hunknown. unfold get_language_scopes.
  destruct (get_all_scopes_spec file self) as (m & s & -> & _ & _ & Hcase).
  simpl. exists s. do 2 f_equal.
  unfold coherent in Hco. destruct (_resolved_scopes self) as [cache|].
  - destruct Hcase as [-> ->]. by rewrite Hco, Hunknown.
  - by rewrite Hcase, Hunknown.
Qed.

(** ** Membership test *)

(** C10. [is_node_type_in_scope] always returns a boolean.  The boolean is
    [true] exactly when the language has a mapping with an entry for the
    scope that lists the node type; so it is [false] when the accessor
    yields [None] or an empty mapping, when the scope name is absent, and
    (for a coherent loader) when the language is unknown. *)
Theorem is_node_type_in_scope_total file self lang_id node_type scope :
  ∃ lang_scopes self' b,
    get_language_scopes file lang_id self = Some (lang_scopes, self')
    ∧ is_node_type_in_scope file lang_id node_type scope self = Some (b, self')
    ∧ (b = true ↔
         ∃ m tys, lang_scopes = Some m ∧ m !! scope = Some tys ∧ node_type ∈ tys)
    ∧ (lang_scopes = None → b = false)
    ∧ (lang_scopes = Some ∅ → b = false)
    ∧ (∀ m, lang_scopes = Some m → m !! scope = None → b = false)
    ∧ (coherent file self → known_languages file self !! lang_id = None →
       b = false).
Proof.
  unfold is_node_type_in_scope, get_language_scopes.
  destruct (get_all_scopes_spec file self) as (all & s & Hget & _ & _ & Hcase).
  rewrite Hget. simpl.
  exists (all !! lang_id), s.
  assert (∀ b : bool,
            (b = true ↔ ∃ m tys, all !! lang_id = Some m ∧ m !! scope = Some tys
                                 ∧ node_type ∈ tys) →
            (all !! lang_id = None → b = false)
            ∧ (all !! lang_id = Some ∅ → b = false)
            ∧ (∀ m, all !! lang_id = Some m → m !! scope = None → b = false)) as Hcons.
  { intros b Hb. split_and!.
    - intros Hn. destruct b; [|done]. destruct Hb as [Hb _].
      destruct (Hb eq_refl) as (m & tys & ? & _). congruence.
    - intros He. destruct b; [|done]. destruct Hb as [Hb _].
      destruct (Hb eq_refl) as (m & tys & ? & Hm & _).
      simplify_eq; by rewrite lookup_empty in Hm.
    - intros m Hm Hs. destruct b; [|done]. destruct Hb as [Hb _].
      destruct (Hb eq_refl) as (m' & tys & ? & Hm' & _). simplify_eq. }
  assert (coherent file self → known_languages file self !! lang_id = None →
          all !! lang_id = None) as Hunknown.
  { intros Hco Hu. unfold coherent in Hco.
    destruct (_resolved_scopes self) as [cache|].
    - destruct Hcase as [-> ->]. by rewrite Hco, Hu.
    - by rewrite Hcase, Hu. }
  destruct (all !! lang_id) as [m|] eqn:Hm; simpl.
  - destruct (bool_decide (m = ∅)) eqn:Hempty; simpl.
    + apply bool_decide_eq_true in Hempty. subst m.
      exists false. split_and!; [done|done| |done|done|done|done].
      split; [done|]. intros (m & tys & ? & Hl & _).
      simplify_eq; by rewrite lookup_empty in Hl.
    + eexists. split; [done|]. split; [done|].
      assert (bool_decide (node_type ∈ default [] (m !! scope)) = true ↔
              ∃ m0 tys, Some m = Some m0 ∧ m0 !! scope = Some tys ∧ node_type ∈ tys)
        as Hb.
      { rewrite bool_decide_eq_true. split.
        - intros Hin. destruct (m !! scope) as [tys|] eqn:Hs; simpl in Hin.
          + eauto.
          + by apply not_elem_of_nil in Hin.
        - intros (m0 & tys & ? & Hs & Hin). simplify_eq. by rewrite Hs. }
      split; [done|]. destruct (Hcons _ Hb) as (H1 & H2 & H3).
      split_and!; [done|done|done|].
      intros Hco Hu. by specialize (Hunknown Hco Hu).
  - exists false. split_and!; try done.
    split; [done|]. intros (m & tys & ? & _). done.
Qed.

(** ** Termination *)

Lemma resolve_rec_total file depth lang_id visited self :
  size (unvisited (known_languages file self) visited) ≤ depth →
  ∃ x, resolve_rec file depth lang_id visited self = Some x
       ∧ ∀ depth', depth ≤ depth' →
           resolve_rec file depth' lang_id visited self = Some x.
Proof.
  intros Hsz.
  destruct (flatten_total _ depth lang_id visited Hsz) as [y Hy].
  eexists. split.
  - rewrite resolve_rec_flatten, Hy. done.
  - intros depth' Hle. rewrite resolve_rec_flatten.
    by rewrite (flatten_mono _ depth depth' lang_id visited y Hy Hle).
Qed.

(** C9. Resolution returns for every configuration, cyclic or not.
    - A call with any visited set returns within an allowance of nested
      calls equal to the number of configured languages, its own language
      is in the visited set afterwards, and the set only grows.
    - More precisely an allowance of as many nested calls as there are
      configured languages not yet visited is enough, and a larger one
      gives the same result.
    - A call on an already-visited id aborts at once, without recursing
      (it returns even when no nested call is allowed).
    - The recursive case passes the visited set with the language added to
      the call for the parent, which is allowed one nested call less. *)
Theorem resolution_terminates file self lang_id :
  (∀ visited, ∃ r visited' self',
      resolve_language_scopes file lang_id visited self = Some (r, visited', self')
      ∧ lang_id ∈ visited' ∧ default ∅ visited ⊆ visited')
  ∧ (∀ depth visited,
       size (unvisited (known_languages file self) visited) ≤ depth →
       ∃ x, resolve_rec file depth lang_id visited self = Some x
            ∧ ∀ depth', depth ≤ depth' →
                resolve_rec file depth' lang_id visited self = Some x)
  ∧ (∀ visited,
       size (unvisited (known_languages file self) visited)
       ≤ size (known_languages file self))
  ∧ (∀ depth visited, lang_id ∈ visited →
       resolve_rec file depth lang_id visited self
       = Some (∅, visited, print (circular_warning lang_id) self))
  ∧ (∀ depth visited c parent,
       lang_id ∉ visited →
       known_languages file self !! lang_id = Some c →
       extends c = Some parent →
       resolve_rec file (S depth) lang_id visited self
       = (λ x, (add_declared c x.1.1, x.1.2, x.2))
           <$> resolve_rec file depth parent ({[lang_id]} ∪ visited)
                 (load_config file self).2).
Proof.
  split_and!.
  - intros visited. rewrite resolve_language_scopes_flatten.
    destruct (flatten_total (known_languages file self)
                (size (known_languages file self)) lang_id (default ∅ visited))
      as [[[r V] w] Hx]; [apply unvisited_size|].
    rewrite Hx. simpl. eexists _, _, _. split; [done|].
    apply flatten_visited_grows in Hx. tauto.
  - intros depth visited. apply resolve_rec_total.
  - intros visited. apply unvisited_size.
  - intros depth visited Hv. rewrite resolve_rec_flatten, flatten_visited by done.
    simpl. unfold after. by rewrite decide_True.
  - intros depth visited c parent Hv Hc He.
    rewrite !resolve_rec_flatten, known_languages_load.
    erewrite flatten_child by done.
    destruct (flatten _ depth parent _) as [[[r V] w]|]; simpl; [|done].
    do 2 f_equal. unfold after. rewrite decide_False by done.
    erewrite load_config_settled by done.
    by destruct (decide (parent ∈ {[lang_id]} ∪ visited)).
Qed.

(** ** Caching *)

(** C8. The cached accessor computes once.  A first call of
    [get_language_scopes] returns and leaves a cache behind; from then on
    every call, for any language and whatever the file now contains,
    answers from that cache and changes nothing (no reading, no
    resolving, no printing), so a repeated call for the same language
    returns the same mapping.  A first call on an empty cache returns, for
    a configured language, the mapping that [resolve_language_scopes]
    returns; and two calls of [resolve_language_scopes] for the same id
    return the same mapping whenever the configuration is the same. *)
Theorem resolution_is_cached file self lang_id :
  ∃ r self1 cache,
    get_language_scopes file lang_id self = Some (r, self1)
    ∧ _resolved_scopes self1 = Some cache
    ∧ (∀ file' lang_id',
         get_language_scopes file' lang_id' self1 = Some (cache !! lang_id', self1))
    ∧ get_language_scopes file lang_id self1 = Some (r, self1)
    ∧ (_resolved_scopes self = None →
       r = known_languages file self !! lang_id
             ≫= λ _, resolved_mapping file lang_id self)
    ∧ (∀ file2 self2,
         known_languages file2 self2 = known_languages file self →
         ∃ x visited1 s1 visited2 s2,
           resolve_language_scopes file lang_id None self = Some (x, visited1, s1)
           ∧ resolve_language_scopes file2 lang_id None self2
             = Some (x, visited2, s2)).
Proof.
  unfold get_language_scopes.
  destruct (get_all_scopes_spec file self) as (all & s & Hget & Hc & _ & Hcase).
  rewrite Hget. simpl.
  assert (∀ file' lang_id',
            get_all_scopes file' s ≫= (λ '(all_scopes, self0),
              Some (all_scopes !! lang_id', self0)) = Some (all !! lang_id', s)) as Hhit.
  { intros file' lang_id'. unfold get_all_scopes. by rewrite Hc. }
  exists (all !! lang_id), s, all. split_and!; [done|done|done|apply Hhit| |].
  - intros Hnone.
    destruct (get_all_scopes_first file self lang_id Hnone) as (m & s' & Hrun & Hm).
    rewrite Hget in Hrun. by simplify_eq.
  - intros file2 self2 HL.
    destruct (resolve_language_scopes_fresh file lang_id self) as (V1 & w1 & H1).
    destruct (resolve_language_scopes_fresh file2 lang_id self2) as (V2 & w2 & H2).
    rewrite HL in H2. eexists _, _, _, _, _. split; done.
Qed.

(** ** Inheritance from the parent *)

(** C6. A configured language whose parent chain never comes back to it
    resolves, for every scope name, to the parent's resolved list followed
    by the language's own entries; a name that only the parent has keeps
    the parent's list, a name that only the language has gets its own
    entries, and a name that neither has stays absent. *)
Theorem child_extends_parent file self lang_id c parent :
  known_languages file self !! lang_id = Some c →
  extends c = Some parent →
  (∀ k, ancestor (known_languages file self) k parent ≠ Some lang_id) →
  ∃ r visited s rp visitedp sp,
    resolve_language_scopes file lang_id None self = Some (r, visited, s)
    ∧ resolve_language_scopes file parent None self = Some (rp, visitedp, sp)
    ∧ (∀ name, r !! name =
         inherit_entry (rp !! name) (default ∅ (scopes c) !! name))
    ∧ (∀ name inherited own,
         rp !! name = Some inherited → default ∅ (scopes c) !! name = Some own →
         r !! name = Some (inherited ++ own))
    ∧ (∀ name inherited,
         rp !! name = Some inherited → default ∅ (scopes c) !! name = None →
         r !! name = Some inherited).
Proof.
  intros Hc He Hacyclic.
  rewrite !resolve_language_scopes_flatten. simpl.
  set (L := known_languages file self) in *.
  pose proof (unvisited_shrinks L lang_id ∅ c ltac:(set_solver) Hc) as Hshrink.
  pose proof (unvisited_size L ∅) as Hsize.
  destruct (size L) as [|n] eqn:Hn; [lia|].
  erewrite flatten_child by first [done|set_solver].
  destruct (flatten_total L n parent ({[lang_id]} ∪ ∅)) as [[[r1 V1] w1] H1]; [lia|].
  rewrite H1.
  pose proof (flatten_mono L n (S n) parent _ _ H1 ltac:(lia)) as H1'.
  assert ((λ x, x.1.1) <$> flatten L (S n) parent ({[lang_id]} ∪ ∅)
          = (λ x, x.1.1) <$> flatten L (S n) parent ∅) as Hagree.
  { apply flatten_agree. intros k x Hx.
    assert (x ≠ lang_id) by (intros ->; by apply (Hacyclic k)). set_solver. }
  rewrite H1' in Hagree.
  destruct (flatten L (S n) parent ∅) as [[[r2 V2] w2]|] eqn:H2; [|done].
  injection Hagree as Hr. simpl in Hr. subst r2. simpl.
  eexists _, _, _, _, _, _. split; [done|]. split; [done|].
  assert (∀ name, add_declared c r1 !! name =
            inherit_entry (r1 !! name) (default ∅ (scopes c) !! name)) as Hlookup
    by (intros name; apply add_declared_lookup).
  split_and!.
  - done.
  - intros name inherited own Hp Ho. by rewrite Hlookup, Hp, Ho.
  - intros name inherited Hp Ho. by rewrite Hlookup, Hp, Ho.
Qed.

Lemma child_extends_parent_witness :
  known_languages (ReadOk web_config) init !! "typescript" = Some typescript
  ∧ extends typescript = Some "javascript"
  ∧ ∃ r visited s rp visitedp sp,
      resolve_language_scopes (ReadOk web_config) "typescript" None init
      = Some (r, visited, s)
      ∧ resolve_language_scopes (ReadOk web_config) "javascript" None init
        = Some (rp, visitedp, sp)
      ∧ (∀ name, r !! name =
           inherit_entry (rp !! name) (default ∅ (scopes typescript) !! name))
      ∧ (∀ name inherited own,
           rp !! name = Some inherited →
           default ∅ (scopes typescript) !! name = Some own →
           r !! name = Some (inherited ++ own))
      ∧ (∀ name inherited,
           rp !! name = Some inherited →
           default ∅ (scopes typescript) !! name = None →
           r !! name = Some inherited).
Proof.
  split; [reflexivity|]. split; [reflexivity|].
  apply (child_extends_parent (ReadOk web_config) init "typescript" typescript
           "javascript"); [reflexivity|reflexivity|].
  intros [|k]; [discriminate|].
  change (parent_of (known_languages (ReadOk web_config) init) "javascript"
            ≫= ancestor (known_languages (ReadOk web_config) init) k
          ≠ Some "typescript").
  replace (parent_of (known_languages (ReadOk web_config) init) "javascript")
    with (@None string) by reflexivity.
  discriminate.
Defined.

(** A configured language without parent resolves to its own entries. *)
Lemma root_language_resolution file self lang_id c :
  known_languages file self !! lang_id = Some c →
  extends c = None →
  ∃ visited s,
    resolve_language_scopes file lang_id None self
    = Some (default ∅ (scopes c), visited, s).
Proof.
  intros Hc He. rewrite resolve_language_scopes_flatten. simpl.
  erewrite flatten_root by first [done|set_solver]. simpl.
  unfold add_declared. destruct (scopes c) as [own|]; simpl.
  - rewrite apply_scopes_empty. eauto.
  - eauto.
Qed.

(** ** Empty resolutions *)

Lemma add_declared_empty c (inherited : scope_map) :
  add_declared c inherited = ∅ ↔ inherited = ∅ ∧ default ∅ (scopes c) = ∅.
Proof.
  split.
  - intros Hempty.
    assert (∀ name, inherited !! name = None
                    ∧ default ∅ (scopes c) !! name = None) as Hnone.
    { intros name. apply (f_equal (λ m : scope_map, m !! name)) in Hempty.
      rewrite add_declared_lookup, lookup_empty in Hempty.
      by destruct (inherited !! name), (default ∅ (scopes c) !! name). }
    split; apply map_eq; intros name; rewrite lookup_empty; apply Hnone.
  - intros [-> Hown]. apply map_eq. intros name.
    by rewrite add_declared_lookup, Hown, !lookup_empty.
Qed.

Lemma merge_lineage_empty (cs : list lang_config) :
  merge_lineage cs = ∅ ↔ ∀ c, c ∈ cs → default ∅ (scopes c) = ∅.
Proof.
  induction cs as [|c0 cs IH].
  - split; [|done]. intros _ c Hin. by apply not_elem_of_nil in Hin.
  - change (merge_lineage (c0 :: cs)) with (add_declared c0 (merge_lineage cs)).
    rewrite add_declared_empty, IH. split.
    + intros [Hrest Hc0] c Hin. apply elem_of_cons in Hin as [->|Hin]; [done|].
      by apply Hrest.
    + intros Hall. split.
      * intros c Hin. apply Hall. rewrite elem_of_cons. tauto.
      * apply Hall. rewrite elem_of_cons. tauto.
Qed.

(** The configurations of a lineage are those of the first ancestors. *)
Lemma lineage_elem (L : gmap string lang_config) k lang_id c :
  c ∈ lineage L k lang_id ↔
  ∃ j x, j < k ∧ ancestor L j lang_id = Some x ∧ L !! x = Some c.
Proof.
  revert lang_id. induction k as [|k IH]; intros lang_id.
  - split; [intros Hin; by apply not_elem_of_nil in Hin|].
    intros (j & x & Hj & _). lia.
  - simpl.
    destruct (L !! lang_id) as [c0|] eqn:Hc0.
    + destruct (extends c0) as [p|] eqn:He.
      * rewrite elem_of_cons, IH. split.
        -- intros [->|(j & x & Hj & Hx & Hc)].
           ++ exists 0, lang_id. split; [lia|done].
           ++ exists (S j), x. split; [lia|]. split; [|done].
              by rewrite (ancestor_S L j lang_id c0 p Hc0 He).
        -- intros (j & x & Hj & Hx & Hc). destruct j as [|j].
           ++ simpl in Hx. simplify_eq. by left.
           ++ right. exists j, x. split; [lia|]. split; [|done].
              by rewrite <- (ancestor_S L j lang_id c0 p Hc0 He).
      * rewrite elem_of_cons. split.
        -- intros [->|Hin]; [|by apply not_elem_of_nil in Hin].
           exists 0, lang_id. split; [lia|done].
        -- intros (j & x & Hj & Hx & Hc). destruct j as [|j].
           ++ simpl in Hx. simplify_eq. by left.
           ++ simpl in Hx. unfold parent_of in Hx. rewrite Hc0 in Hx. simpl in Hx.
              by rewrite He in Hx.
    + split; [intros Hin; by apply not_elem_of_nil in Hin|].
      intros (j & x & Hj & Hx & Hc). destruct j as [|j].
      * simpl in Hx. simplify_eq.
      * simpl in Hx. unfold parent_of in Hx. by rewrite Hc0 in Hx.
Qed.

(** A known language means that loading printed nothing. *)
Lemma stdout_load_known file self lang_id c :
  known_languages file self !! lang_id = Some c →
  stdout (load_config file self).2 = stdout self.
Proof.
  unfold known_languages, load_config.
  destruct (_config self) as [cfg|]; [done|].
  destruct file as [cfg|e]; simpl; [done|]. by rewrite lookup_empty.
Qed.

(** ** Cyclic inheritance *)

(** A language that extends itself and declares a scope lies on a cycle,
    and yet resolves to a non-empty mapping: the scope it declares. *)
Lemma cyclic_language_not_empty :
  cyclic (known_languages (ReadOk self_cycle) init) "a"
  ∧ ∃ r visited self',
      resolve_language_scopes (ReadOk self_cycle) "a" None init
      = Some (r, visited, self')
      ∧ r !! "func" = Some ["function_definition"]
      ∧ r ≠ ∅
      ∧ stdout self' = [circular_warning "a"].
Proof.
  split.
  - exists 1. split; [lia|reflexivity].
  - eexists _, _, _. split; [vm_compute; reflexivity|].
    split; [reflexivity|]. split; [|reflexivity].
    intros Hempty. apply (f_equal (λ m : scope_map, m !! "func")) in Hempty.
    vm_compute in Hempty. discriminate Hempty.
Qed.

(** C2, amended.  A language whose parent chain cycles back to it, with
    [k] the length of the cycle (the least number of steps that lead back
    to the language):
    - its resolution returns (within the allowance of nested calls);
    - exactly one message is printed, the circular-dependency warning
      naming the language;
    - the resolved mapping is the merge of the scopes declared by the [k]
      languages of the cycle, the farthest ancestor first; in particular
      every entry that the language declares itself ends the resolved list
      of its scope name;
    - the resolved mapping is empty exactly when no language of the cycle
      declares a scope entry;
    - the call that finds the language already visited returns the empty
      mapping, with the warning. *)
Theorem cyclic_language_resolution file self lang_id :
  cyclic (known_languages file self) lang_id →
  ∃ k visited',
    0 < k
    ∧ ancestor (known_languages file self) k lang_id = Some lang_id
    ∧ resolve_language_scopes file lang_id None self
      = Some (merge_lineage (lineage (known_languages file self) k lang_id),
              visited',
              print (circular_warning lang_id) (load_config file self).2)
    ∧ (∀ c own name tys,
         known_languages file self !! lang_id = Some c →
         scopes c = Some own → own !! name = Some tys →
         ∃ inherited,
           merge_lineage (lineage (known_languages file self) k lang_id) !! name
           = Some (inherited ++ tys))
    ∧ (∀ depth visited s, lang_id ∈ visited →
         resolve_rec file depth lang_id visited s
         = Some (∅, visited, print (circular_warning lang_id) s))
    ∧ (∀ j, 0 < j < k →
         ancestor (known_languages file self) j lang_id ≠ Some lang_id)
    ∧ stdout (print (circular_warning lang_id) (load_config file self).2)
      = stdout self ++ [circular_warning lang_id]
    ∧ (merge_lineage (lineage (known_languages file self) k lang_id) = ∅
       ↔ ∀ j x c,
           j < k →
           ancestor (known_languages file self) j lang_id = Some x →
           known_languages file self !! x = Some c →
           default ∅ (scopes c) = ∅).
Proof.
  intros (k0 & Hk0 & Hcyc0).
  destruct (least_period _ lang_id k0 Hk0 Hcyc0) as (k & Hk & Hcyc & Hmin).
  destruct (flatten_cycle _ k lang_id ltac:(lia) Hcyc Hmin) as [V' Hflat].
  exists k, V'. split_and!; [lia|done| | | |done| |].
  - rewrite resolve_language_scopes_flatten. simpl. rewrite Hflat. simpl.
    unfold after. rewrite decide_False by set_solver. done.
  - intros c own name tys Hc Hown Hname.
    destruct k as [|k]; [lia|]. simpl. rewrite Hc. simpl.
    rewrite add_declared_lookup, Hown. simpl. rewrite Hname.
    match goal with |- context [inherit_entry ?x _] => destruct x as [l|] end.
    + by exists l.
    + by exists [].
  - intros depth visited s Hv. rewrite resolve_rec_flatten, flatten_visited by done.
    simpl. unfold after. by rewrite decide_True.
  - destruct k as [|k]; [lia|].
    destruct (ancestor_S_inv _ _ _ _ Hcyc) as (c & p & Hc & _).
    simpl. by rewrite (stdout_load_known file self lang_id c Hc).
  - rewrite merge_lineage_empty. split.
    + intros Hall j x c Hj Hx Hc. apply Hall. apply lineage_elem. eauto.
    + intros Hall c Hin. apply lineage_elem in Hin as (j & x & Hj & Hx & Hc).
      by apply (Hall j x c).
Qed.

Lemma cyclic_language_resolution_witness :
  cyclic (known_languages (ReadOk two_cycle) init) "a"
  ∧ ∃ k visited',
      0 < k
      ∧ ancestor (known_languages (ReadOk two_cycle) init) k "a" = Some "a"
      ∧ resolve_language_scopes (ReadOk two_cycle) "a" None init
        = Some (merge_lineage (lineage (known_languages (ReadOk two_cycle) init) k "a"),
                visited',
                print (circular_warning "a") (load_config (ReadOk two_cycle) init).2)
      ∧ (∀ c own name tys,
           known_languages (ReadOk two_cycle) init !! "a" = Some c →
           scopes c = Some own → own !! name = Some tys →
           ∃ inherited,
             merge_lineage (lineage (known_languages (ReadOk two_cycle) init) k "a")
               !! name
             = Some (inherited ++ tys))
      ∧ (∀ depth visited s, "a" ∈ visited →
           resolve_rec (ReadOk two_cycle) depth "a" visited s
           = Some (∅, visited, print (circular_warning "a") s))
      ∧ (∀ j, 0 < j < k →
           ancestor (known_languages (ReadOk two_cycle) init) j "a" ≠ Some "a")
      ∧ stdout (print (circular_warning "a") (load_config (ReadOk two_cycle) init).2)
        = stdout init ++ [circular_warning "a"]
      ∧ (merge_lineage (lineage (known_languages (ReadOk two_cycle) init) k "a") = ∅
         ↔ ∀ j x c,
             j < k →
             ancestor (known_languages (ReadOk two_cycle) init) j "a" = Some x →
             known_languages (ReadOk two_cycle) init !! x = Some c →
             default ∅ (scopes c) = ∅).
Proof.
  assert (cyclic (known_languages (ReadOk two_cycle) init) "a") as Hcyc.
  { exists 2. split; [lia|reflexivity]. }
  split; [exact Hcyc|].
  exact (cyclic_language_resolution (ReadOk two_cycle) init "a" Hcyc).
Defined.

(** A cycle that declares nothing resolves to the empty mapping, with the
    warning. *)
Example bare_cycle_resolved :
  cyclic (known_languages (ReadOk bare_cycle) init) "a"
  ∧ ∃ visited self',
      resolve_language_scopes (ReadOk bare_cycle) "a" None init
      = Some (∅, visited, self')
      ∧ stdout self' = [circular_warning "a"].
Proof.
  split; [exists 1; split; [lia|reflexivity]|].
  eexists _, _. split; [vm_compute; reflexivity|reflexivity].
Qed.

(** The two-language cycle resolved: both declared lists, the ancestor's
    first, and one warning. *)
Example two_cycle_resolved :
  ∃ r visited self',
    resolve_language_scopes (ReadOk two_cycle) "a" None init
    = Some (r, visited, self')
    ∧ r !! "func" = Some ["fb"; "fa"]
    ∧ stdout self' = [circular_warning "a"].
Proof. eexists _, _, _. split; [vm_compute; reflexivity|]. split; reflexivity. Qed.

End LoaderFacts.

(** * Facts about the permission timeline *)

Module TimelineFacts.
Import Timeline.

(** ** Popping *)

Lemma pop_open l r :
  (∀ stop, end_line r = Some stop → l ≤ stop) →
  pop l (Some r) = Some r.
Proof.
  intros Hopen. destruct r as [p s [stop|] rest]; simpl; [|done].
  specialize (Hopen stop eq_refl).
  destruct (stop <? l) eqn:Hlt; [|done].
  apply Nat.ltb_lt in Hlt. lia.
Qed.

Lemma pop_passed l r stop :
  end_line r = Some stop → stop < l →
  pop l (Some r) = pop l (restores_to r).
Proof.
  intros Hend Hlt. destruct r as [p s e rest]; simpl in *. subst e.
  apply Nat.ltb_lt in Hlt. rewrite Hlt. by destruct rest.
Qed.

(** Every state is reached by finitely many pushes. *)
Lemma stack_ind (P : option Region → Prop) :
  P None →
  (∀ r, P (restores_to r) → P (Some r)) →
  ∀ current, P current.
Proof.
  intros Hnone Hsome.
  assert (∀ n current, depth current ≤ n → P current) as Hall.
  { induction n as [|n IH]; intros [r|] Hd; try done.
    - destruct r as [p s e [r'|]]; simpl in Hd; lia.
    - apply Hsome. apply IH.
      destruct r as [p s e [r'|]]; simpl in *; lia. }
  intros current. by apply (Hall (depth current)).
Qed.

Lemma depth_Some r : depth (Some r) = S (depth (restores_to r)).
Proof. by destruct r as [p s e [r'|]]. Qed.

Lemma depth_pop l current : depth (pop l current) ≤ depth current.
Proof.
  induction current as [|r IH] using stack_ind; [done|].
  destruct (end_line r) as [stop|] eqn:Hend.
  - destruct (decide (stop < l)) as [Hlt|Hge].
    + rewrite (pop_passed l r stop Hend Hlt), depth_Some. lia.
    + rewrite pop_open; [done|]. intros stop' Hs. simplify_eq. lia.
  - rewrite pop_open; [done|]. intros stop' Hs. congruence.
Qed.

(** Later pops subsume earlier ones. *)
Lemma pop_pop l1 l2 current :
  l1 ≤ l2 → pop l2 (pop l1 current) = pop l2 current.
Proof.
  intros Hle. induction current as [|r IH] using stack_ind; [done|].
  destruct (end_line r) as [stop|] eqn:Hend.
  - destruct (decide (stop < l1)) as [Hlt|Hge].
    + rewrite (pop_passed l1 r stop Hend Hlt), IH.
      by rewrite (pop_passed l2 r stop Hend ltac:(lia)).
    + rewrite (pop_open l1 r); [done|]. intros stop' Hs. simplify_eq. lia.
  - rewrite (pop_open l1 r); [done|]. intros stop' Hs. congruence.
Qed.

(** A region is not what remains below it. *)
Lemma region_not_below l r :
  pop l (restores_to r) ≠ Some r.
Proof.
  intros Heq. pose proof (depth_pop l (restores_to r)) as Hd.
  rewrite Heq, depth_Some in Hd. lia.
Qed.

(** ** The pass *)

Section Pass.

Variable f : SourceFile.

Lemma current_region_S a l :
  current_region f a (S l) = foldl (push f) (pop (S l) (current_region f a l)) (tags_at f a (S l)).
Proof. reflexivity. Qed.

Lemma tags_at_actor a l :
  tags_at f a l = filter (λ t, line t = l) (filter (λ t, actor t = a) (tags f)).
Proof.
  unfold tags_at. rewrite list_filter_filter.
  apply list_filter_iff. intros t. tauto.
Qed.

Lemma tags_at_elem a l t : t ∈ tags_at f a l → actor t = a ∧ line t = l.
Proof. unfold tags_at. rewrite list_elem_of_filter. tauto. Qed.

(** Lines without a tag of the actor only pop. *)
Lemma current_region_quiet a lo hi :
  lo < hi →
  (∀ l, lo < l ≤ hi → tags_at f a l = []) →
  current_region f a hi = pop hi (current_region f a lo).
Proof.
  induction hi as [|hi IH]; intros Hlt Hquiet; [lia|].
  rewrite current_region_S, Hquiet by lia. simpl.
  destruct (decide (lo = hi)) as [->|Hne]; [done|].
  rewrite IH; [|lia|intros l Hl; apply Hquiet; lia].
  apply pop_pop. lia.
Qed.

(** A single bounded tag on line [L], followed by lines without tags of
    its actor up to line [M]: its region is current from [L] to its end,
    and from then on the state is what was there before, popped. *)
Lemma bounded_region a t L stop M :
  0 < L →
  tags_at f a L = [t] →
  span_end f t = Some stop →
  L ≤ stop →
  (∀ l, L < l ≤ M → tags_at f a l = []) →
  current_region f a L = Some (region_of f t (state_before f a L))
  ∧ ∀ l, L < l ≤ M →
      current_region f a l =
        if decide (l ≤ stop) then Some (region_of f t (state_before f a L))
        else pop l (state_before f a L).
Proof.
  intros HL Htag Hend Hle Hquiet.
  assert (current_region f a L = Some (region_of f t (state_before f a L))) as Hat.
  { destruct L as [|L']; [lia|]. rewrite current_region_S, Htag. done. }
  split; [done|]. intros l Hl.
  rewrite (current_region_quiet a L l); [|lia|intros l' Hl'; apply Hquiet; lia].
  rewrite Hat. case_decide as Hin.
  - apply pop_open. simpl. intros stop' Hs. rewrite Hend in Hs. simplify_eq. lia.
  - erewrite pop_passed; [done|exact Hend|lia].
Qed.

End Pass.

(** ** Line counts *)

Lemma span_end_line_count f t n :
  is_context_tag t = false → scope t = LineCount n →
  anchor t = StandaloneComment →
  span_end f t = Some ((line t + n) `min` last_line f).
Proof. intros Hctx Hscope Hanchor. unfold span_end. by rewrite Hctx, Hscope, Hanchor. Qed.

(** C4. A standalone tag [t] on line [L] with scope [LineCount n], the
    only tag of its actor on that line and followed by lines without tags
    of the actor up to line [M]:
    - the end of its region is [min (L + n) last_line]: clamped to the end
      of the file, and always defined (no error);
    - on the lines after the tag line, the region is the current one
      exactly on lines [L + 1 .. min (L + n) last_line], which report the
      tag's permission;
    - on the lines after that end, the state is the one from before the
      tag (with the pops due by then). *)
Theorem line_count_extent f a t L n M :
  0 < L → L ≤ last_line f →
  tags_at f a L = [t] →
  scope t = LineCount n → anchor t = StandaloneComment →
  is_context_tag t = false →
  (∀ l, L < l ≤ M → tags_at f a l = []) →
  span_end f t = Some ((L + n) `min` last_line f)
  ∧ (∀ l, L < l ≤ M →
       current_region f a l = Some (region_of f t (state_before f a L))
       ↔ l ≤ (L + n) `min` last_line f)
  ∧ (∀ l, L < l ≤ M → l ≤ (L + n) `min` last_line f →
       permission_at f a l = Guarded (permission t))
  ∧ (∀ l, L < l ≤ M → (L + n) `min` last_line f < l →
       current_region f a l = pop l (state_before f a L)
       ∧ permission_at f a l = shown (pop l (state_before f a L))).
Proof.
  intros HL Hfile Htag Hscope Hanchor Hctx Hquiet.
  assert (line t = L) as Hline.
  { apply (tags_at_elem f a L t). rewrite Htag. apply list_elem_of_here. }
  pose proof (span_end_line_count f t n Hctx Hscope Hanchor) as Hend.
  rewrite Hline in Hend.
  destruct (bounded_region f a t L _ M HL Htag Hend ltac:(lia) Hquiet) as [_ Hrun].
  split; [done|]. split_and!.
  - intros l Hl. rewrite (Hrun l Hl). case_decide as Hin; [tauto|].
    split; [|lia]. intros Heq. exfalso.
    by apply (region_not_below l (region_of f t (state_before f a L))).
  - intros l Hl Hin. unfold permission_at, timeline.
    rewrite (Hrun l Hl), decide_True by done. done.
  - intros l Hl Hout. unfold permission_at, timeline.
    rewrite (Hrun l Hl), decide_False by lia. done.
Qed.

Lemma line_count_extent_witness :
  0 < 3 ∧ 3 ≤ last_line near_end_of_file
  ∧ span_end near_end_of_file (standalone 3 ai NoAccess (LineCount 3)) = Some 5
  ∧ (∀ l, 3 < l ≤ 7 →
       current_region near_end_of_file ai l
       = Some (region_of near_end_of_file (standalone 3 ai NoAccess (LineCount 3))
                 (state_before near_end_of_file ai 3))
       ↔ l ≤ 5)
  ∧ (∀ l, 3 < l ≤ 7 → l ≤ 5 →
       permission_at near_end_of_file ai l = Guarded NoAccess)
  ∧ (∀ l, 3 < l ≤ 7 → 5 < l →
       current_region near_end_of_file ai l
       = pop l (state_before near_end_of_file ai 3)
       ∧ permission_at near_end_of_file ai l
         = shown (pop l (state_before near_end_of_file ai 3))).
Proof.
  split; [lia|]. split; [simpl; lia|].
  apply (line_count_extent near_end_of_file ai
           (standalone 3 ai NoAccess (LineCount 3)) 3 3 7);
    [lia|simpl; lia|reflexivity|reflexivity|reflexivity|reflexivity|].
  intros l Hl.
  assert (l = 4 ∨ l = 5 ∨ l = 6 ∨ l = 7) as [->|[->|[->| ->]]] by lia; reflexivity.
Defined.

(** The line-count fixture: three, two and one governed lines, each
    followed by the unguarded state. *)
Example final_python_test_timeline :
  map (permission_at final_python_test ai) (seq 6 14) =
    [Guarded Read; Guarded Read; Guarded Read; Guarded Read; Unguarded; Unguarded;
     Guarded Write; Guarded Write; Guarded Write; Unguarded; Unguarded;
     Guarded NoAccess; Guarded NoAccess; Unguarded].
Proof. reflexivity. Qed.

(** ** Context regions *)

(** A run of exactly [N] documentation lines, with more lines to look at. *)
Lemma documentation_run_exact f t N l remaining :
  (∀ i, i < N → documentation f t (l + i) = true) →
  documentation f t (l + N) = false →
  N < remaining →
  documentation_run f t l remaining = N.
Proof.
  revert l remaining.
  induction N as [|N IH]; intros l remaining Hdoc Hstop Hroom.
  - destruct remaining as [|remaining]; [lia|]. simpl.
    rewrite Nat.add_0_r in Hstop. by rewrite Hstop.
  - destruct remaining as [|remaining]; [lia|]. simpl.
    pose proof (Hdoc 0 ltac:(lia)) as H0. rewrite Nat.add_0_r in H0. rewrite H0.
    f_equal. apply IH; [|by rewrite Nat.add_succ_comm|lia].
    intros i Hi. rewrite Nat.add_succ_comm. apply Hdoc. lia.
Qed.

(** C5. A context tag [t] on line [L] followed immediately by [N]
    documentation lines and then by a line of the file that is not
    documentation; [t] is the only tag of its actor on its line and is
    followed by lines without tags of the actor up to line [M]:
    - the end of its region is line [L + N];
    - after the tag line the region is the current one exactly on the [N]
      documentation lines, which report the tag's permission;
    - on the boundary line [L + N + 1] the region is not current: the
      state is the one from before the tag (with the pops due by then). *)
Theorem context_extent f a t L N M :
  0 < L →
  tags_at f a L = [t] →
  is_context_tag t = true →
  (∀ l, L < l ≤ L + N → documentation f t l = true) →
  documentation f t (L + N + 1) = false →
  L + N + 1 ≤ last_line f →
  (∀ l, L < l ≤ M → tags_at f a l = []) →
  span_end f t = Some (L + N)
  ∧ (∀ l, L < l ≤ M →
       current_region f a l = Some (region_of f t (state_before f a L))
       ↔ l ≤ L + N)
  ∧ (∀ l, L < l ≤ M → l ≤ L + N → permission_at f a l = Guarded (permission t))
  ∧ (L + N + 1 ≤ M →
       current_region f a (L + N + 1) = pop (L + N + 1) (state_before f a L)
       ∧ current_region f a (L + N + 1)
         ≠ Some (region_of f t (state_before f a L))
       ∧ permission_at f a (L + N + 1)
         = shown (pop (L + N + 1) (state_before f a L))).
Proof.
  intros HL Htag Hctx Hdoc Hstop Hfile Hquiet.
  assert (line t = L) as Hline.
  { apply (tags_at_elem f a L t). rewrite Htag. apply list_elem_of_here. }
  assert (span_end f t = Some (L + N)) as Hend.
  { unfold span_end, context_end. rewrite Hctx, Hline. do 2 f_equal.
    apply documentation_run_exact.
    - intros i Hi. apply Hdoc. lia.
    - by replace (S L + N) with (L + N + 1) by lia.
    - lia. }
  destruct (bounded_region f a t L _ M HL Htag Hend ltac:(lia) Hquiet) as [_ Hrun].
  assert (∀ l, L < l ≤ M →
            current_region f a l = Some (region_of f t (state_before f a L))
            ↔ l ≤ L + N) as Hexact.
  { intros l Hl. rewrite (Hrun l Hl). case_decide as Hin; [tauto|].
    split; [|lia]. intros Heq. exfalso.
    by apply (region_not_below l (region_of f t (state_before f a L))). }
  split; [done|]. split; [done|]. split.
  - intros l Hl Hin. unfold permission_at, timeline.
    rewrite (Hrun l Hl), decide_True by done. done.
  - intros HM.
    assert (current_region f a (L + N + 1) = pop (L + N + 1) (state_before f a L))
      as Hafter by (rewrite Hrun by lia; rewrite decide_False by lia; done).
    split_and!.
    + done.
    + rewrite Hexact by lia. lia.
    + unfold permission_at, timeline. by rewrite Hafter.
Qed.

Lemma context_extent_witness :
  0 < 3
  ∧ is_context_tag (standalone 3 internal Read (Semantic "context")) = true
  ∧ span_end context_guards (standalone 3 internal Read (Semantic "context"))
    = Some (3 + 3)
  ∧ (∀ l, 3 < l ≤ 10 →
       current_region context_guards internal l
       = Some (region_of context_guards
                 (standalone 3 internal Read (Semantic "context"))
                 (state_before context_guards internal 3))
       ↔ l ≤ 3 + 3)
  ∧ (∀ l, 3 < l ≤ 10 → l ≤ 3 + 3 →
       permission_at context_guards internal l = Guarded Read)
  ∧ (3 + 3 + 1 ≤ 10 →
       current_region context_guards internal (3 + 3 + 1)
       = pop (3 + 3 + 1) (state_before context_guards internal 3)
       ∧ current_region context_guards internal (3 + 3 + 1)
         ≠ Some (region_of context_guards
                   (standalone 3 internal Read (Semantic "context"))
                   (state_before context_guards internal 3))
       ∧ permission_at context_guards internal (3 + 3 + 1)
         = shown (pop (3 + 3 + 1) (state_before context_guards internal 3))).
Proof.
  split; [lia|]. split; [reflexivity|].
  apply (context_extent context_guards internal
           (standalone 3 internal Read (Semantic "context")) 3 3 10);
    [lia|reflexivity|reflexivity| |reflexivity|simpl; lia|].
  - intros l Hl. assert (l = 4 ∨ l = 5 ∨ l = 6) as [->|[->| ->]] by lia; reflexivity.
  - intros l Hl.
    assert (l = 4 ∨ l = 5 ∨ l = 6 ∨ l = 7 ∨ l = 8 ∨ l = 9 ∨ l = 10)
      as [->|[->|[->|[->|[->|[->| ->]]]]]] by lia; reflexivity.
Defined.

(** The context fixture: the comments of lines 4-6 are governed, the [def]
    of line 7 is not; the docstring of lines 12-18 is governed, the [def]
    of line 19 is not. *)
Example context_guards_timeline :
  map (permission_at context_guards internal) [3; 4; 5; 6; 7; 8] =
    [Guarded Read; Guarded Read; Guarded Read; Guarded Read; Unguarded; Unguarded]
  ∧ map (permission_at context_guards sensitive) [11; 12; 18; 19; 20] =
    [Guarded NoAccess; Guarded NoAccess; Guarded NoAccess; Unguarded; Unguarded].
Proof. split; reflexivity. Qed.

(** ** Sibling regions *)

(** C3. Two bounded tags of one actor, [t1] on line [L1] with region end
    [e1] and [t2] on a later line [L2 > e1] with region end [e2], each the
    only tag of the actor on its line, with no other tag of the actor
    between [L1] and a line [M] from [L2] on:
    - up to the second tag, the first region is current exactly on
      [L1 .. e1], and between the two regions the state is the one from
      before the first tag;
    - the second region remembers the state that is really there when its
      line is reached, which is the state from before the first tag and
      not the first region;
    - from the second tag on, the second region is current exactly on
      [L2 .. e2], the first region never is, and after [e2] the state is
      the one the second region remembered (with the pops due by then). *)
Theorem sibling_regions f a t1 t2 L1 e1 L2 e2 M :
  0 < L1 →
  tags_at f a L1 = [t1] → tags_at f a L2 = [t2] →
  span_end f t1 = Some e1 → span_end f t2 = Some e2 →
  L1 ≤ e1 → e1 < L2 → L2 ≤ e2 → L2 ≤ M →
  (∀ l, L1 < l ≤ M → l ≠ L2 → tags_at f a l = []) →
  (∀ l, L1 ≤ l < L2 →
     current_region f a l = Some (region_of f t1 (state_before f a L1)) ↔ l ≤ e1)
  ∧ (∀ l, L1 ≤ l < L2 → l ≤ e1 → permission_at f a l = Guarded (permission t1))
  ∧ (∀ l, e1 < l < L2 → current_region f a l = pop l (state_before f a L1))
  ∧ state_before f a L2 = pop L2 (state_before f a L1)
  ∧ state_before f a L2 ≠ Some (region_of f t1 (state_before f a L1))
  ∧ (∀ l, L2 ≤ l ≤ M →
       current_region f a l = Some (region_of f t2 (state_before f a L2)) ↔ l ≤ e2)
  ∧ (∀ l, L2 ≤ l ≤ M → l ≤ e2 → permission_at f a l = Guarded (permission t2))
  ∧ (∀ l, L2 ≤ l ≤ M → e2 < l →
       current_region f a l = pop l (state_before f a L2)
       ∧ permission_at f a l = shown (pop l (state_before f a L2)))
  ∧ (∀ l, L2 ≤ l ≤ M →
       current_region f a l ≠ Some (region_of f t1 (state_before f a L1))).
Proof.
  intros HL1 Htag1 Htag2 Hend1 Hend2 Hle1 Hgap Hle2 HM Hquiet.
  set (prior := state_before f a L1).
  set (R1 := region_of f t1 prior).
  assert (line t1 = L1) as Hline1.
  { apply (tags_at_elem f a L1 t1). rewrite Htag1. apply list_elem_of_here. }
  assert (line t2 = L2) as Hline2.
  { apply (tags_at_elem f a L2 t2). rewrite Htag2. apply list_elem_of_here. }
  destruct (bounded_region f a t1 L1 e1 (L2 - 1) HL1 Htag1 Hend1 Hle1) as [Hat1 Hrun1].
  { intros l Hl. apply Hquiet; lia. }
  fold prior in Hat1, Hrun1. fold R1 in Hat1, Hrun1.
  assert (state_before f a L2 = pop L2 prior) as Hbefore2.
  { unfold state_before at 1.
    destruct (decide (L2 - 1 = L1)) as [Heq|Hne].
    - replace (pred L2) with L1 by lia. rewrite Hat1.
      erewrite pop_passed; [done|exact Hend1|lia].
    - replace (pred L2) with (L2 - 1) by lia.
      rewrite Hrun1 by lia. case_decide as Hin.
      + erewrite pop_passed; [done|exact Hend1|lia].
      + apply pop_pop. lia. }
  destruct (bounded_region f a t2 L2 e2 M ltac:(lia) Htag2 Hend2 Hle2) as [Hat2 Hrun2].
  { intros l Hl. apply Hquiet; lia. }
  set (R2 := region_of f t2 (state_before f a L2)) in *.
  assert (∀ l, pop l prior ≠ Some R1) as Hgone
    by (intros l; apply (region_not_below l R1)).
  assert (∀ l, L1 ≤ l < L2 → current_region f a l = Some R1 ↔ l ≤ e1) as Hexact1.
  { intros l Hl. destruct (decide (l = L1)) as [->|Hne]; [by rewrite Hat1|].
    rewrite Hrun1 by lia. case_decide; [tauto|]. split; [|lia].
    intros Heq. by apply Hgone in Heq. }
  assert (∀ l, L2 ≤ l ≤ M → current_region f a l = Some R2 ↔ l ≤ e2) as Hexact2.
  { intros l Hl. destruct (decide (l = L2)) as [->|Hne]; [by rewrite Hat2|].
    rewrite Hrun2 by lia. case_decide; [tauto|]. split; [|lia].
    intros Heq. by apply (region_not_below l R2) in Heq. }
  split_and!.
  - done.
  - intros l Hl Hin. unfold permission_at, timeline.
    apply Hexact1 in Hin; [|done]. by rewrite Hin.
  - intros l Hl. rewrite Hrun1 by lia. by rewrite decide_False by lia.
  - done.
  - rewrite Hbefore2. apply Hgone.
  - done.
  - intros l Hl Hin. unfold permission_at, timeline.
    apply Hexact2 in Hin; [|done]. by rewrite Hin.
  - intros l Hl Hout. unfold permission_at, timeline.
    destruct (decide (l = L2)) as [->|Hne]; [lia|].
    rewrite Hrun2 by lia. by rewrite decide_False by lia.
  - intros l Hl.
    destruct (decide (l ≤ e2)) as [Hin|Hout].
    + apply Hexact2 in Hin; [|done]. rewrite Hin. intros Heq.
      assert (start_line R2 = start_line R1) as Hs by congruence.
      simpl in Hs. lia.
    + destruct (decide (l = L2)) as [->|Hne]; [lia|].
      rewrite Hrun2 by lia. rewrite decide_False by lia.
      rewrite Hbefore2, pop_pop by lia. apply Hgone.
Qed.

Lemma sibling_regions_witness :
  span_end block_scope_issue (standalone 7 human Read (Semantic "block")) = Some 12
  ∧ span_end block_scope_issue (standalone 14 human Read (Semantic "block")) = Some 19
  ∧ (∀ l, 7 ≤ l < 14 →
       current_region block_scope_issue human l
       = Some (region_of block_scope_issue (standalone 7 human Read (Semantic "block"))
                 (state_before block_scope_issue human 7))
       ↔ l ≤ 12)
  ∧ (∀ l, 14 ≤ l ≤ 26 →
       current_region block_scope_issue human l
       = Some (region_of block_scope_issue (standalone 14 human Read (Semantic "block"))
                 (state_before block_scope_issue human 14))
       ↔ l ≤ 19)
  ∧ (∀ l, 14 ≤ l ≤ 26 → 19 < l →
       permission_at block_scope_issue human l
       = shown (pop l (state_before block_scope_issue human 14))).
Proof.
  split; [reflexivity|]. split; [reflexivity|].
  destruct (sibling_regions block_scope_issue human
              (standalone 7 human Read (Semantic "block"))
              (standalone 14 human Read (Semantic "block")) 7 12 14 19 26)
    as (H1 & _ & _ & _ & _ & H2 & _ & H3 & _);
    [lia|reflexivity|reflexivity|reflexivity|reflexivity|lia|lia|lia|lia| |].
  - intros l Hl Hne.
    assert (∀ k, k ≤ 26 → k ≠ 7 → k ≠ 14 → tags_at block_scope_issue human k = [])
      as Hnone.
    { intros k Hk. do 27 (destruct k as [|k]; [intros; first [reflexivity|lia]|]). lia. }
    apply Hnone; lia.
  - split; [exact H1|]. split; [exact H2|]. intros l Hl Hout. by apply H3.
Defined.

(** The block fixture, as its closing comment expects: lines 7-12 and
    14-19 are read-only for humans, and line 13 and the lines from 20 on
    are unguarded. *)
Example block_scope_issue_timeline :
  map (permission_at block_scope_issue human) (seq 6 16) =
    [Unguarded;
     Guarded Read; Guarded Read; Guarded Read; Guarded Read; Guarded Read; Guarded Read;
     Unguarded;
     Guarded Read; Guarded Read; Guarded Read; Guarded Read; Guarded Read; Guarded Read;
     Unguarded; Unguarded].
Proof. reflexivity. Qed.

(** ** A bounded region inside an unbounded one *)

(** C1. In every file whose tags for the actor [("ai", None)] are an
    unbounded [@guard:ai:w] on line 1 and a standalone [@guard:ai:r.2] on
    line 3 (tags of other actors are unrestricted), the timeline of that
    actor reports Read on lines 4 and 5 and Write on every line from 6 on;
    the region current from line 6 on is the unbounded region of line 1
    itself, not the unguarded state.  Lines 1 and 2 report Write and the
    tag line 3 reports Read. *)
Theorem nested_bounded_region_restores f anchor1 :
  filter (λ t, actor t = ai) (tags f) =
    [ {| line := 1; actor := ai; permission := Write; scope := Unbounded;
         anchor := anchor1 |};
      standalone 3 ai Read (LineCount 2) ] →
  (∀ l, 4 ≤ l ≤ 5 → l ≤ last_line f → permission_at f ai l = Guarded Read)
  ∧ (∀ l, 6 ≤ l → permission_at f ai l = Guarded Write)
  ∧ (∀ l, 6 ≤ l →
       current_region f ai l =
         Some {| region_permission := Write; start_line := 1;
                 end_line := None; restores_to := None |})
  ∧ (∀ l, 6 ≤ l → permission_at f ai l ≠ Unguarded)
  ∧ permission_at f ai 1 = Guarded Write
  ∧ permission_at f ai 2 = Guarded Write
  ∧ permission_at f ai 3 = Guarded Read.
Proof.
  intros Htags.
  set (t1 := {| line := 1; actor := ai; permission := Write; scope := Unbounded;
                anchor := anchor1 |}) in *.
  set (t2 := standalone 3 ai Read (LineCount 2)) in *.
  set (R1 := {| region_permission := Write; start_line := 1;
                end_line := None; restores_to := None |}).
  set (R2 := {| region_permission := Read; start_line := 3;
                end_line := Some (5 `min` last_line f); restores_to := Some R1 |}).
  assert (∀ l, tags_at f ai l = filter (λ t, line t = l) [t1; t2]) as Hat
    by (intros l; by rewrite tags_at_actor, Htags).
  assert (∀ l, l ≠ 1 → l ≠ 3 → tags_at f ai l = []) as Hquiet.
  { intros l H1 H3. rewrite Hat.
    rewrite filter_cons_False by (simpl; lia).
    rewrite filter_cons_False by (simpl; lia). done. }
  assert (current_region f ai 1 = Some R1) as Hc1.
  { rewrite current_region_S, Hat. done. }
  assert (current_region f ai 2 = Some R1) as Hc2.
  { rewrite current_region_S, Hc1, Hquiet by lia. done. }
  assert (current_region f ai 3 = Some R2) as Hc3.
  { rewrite current_region_S, Hc2, Hat. done. }
  assert (∀ l, 3 < l → current_region f ai l = pop l (Some R2)) as Hlater.
  { intros l Hl. rewrite (current_region_quiet f ai 3 l), Hc3; [done|lia|].
    intros l' Hl'. apply Hquiet; lia. }
  assert (∀ l, 6 ≤ l → current_region f ai l = Some R1) as Hrestored.
  { intros l Hl. rewrite Hlater by lia.
    erewrite pop_passed; [|reflexivity|lia]. done. }
  unfold permission_at, timeline. split_and!.
  - intros l Hl Hfile. rewrite Hlater by lia.
    rewrite pop_open; [done|].
    change (end_line R2) with (Some (5 `min` last_line f)).
    intros stop Hs.
    assert (stop = 5 `min` last_line f) as -> by congruence.
    apply Nat.min_glb; lia.
  - intros l Hl. by rewrite Hrestored.
  - done.
  - intros l Hl. by rewrite Hrestored.
  - by rewrite Hc1.
  - by rewrite Hc2.
  - by rewrite Hc3.
Qed.

Lemma nested_bounded_region_restores_witness :
  filter (λ t, actor t = ai) (tags scenario) =
    [ {| line := 1; actor := ai; permission := Write; scope := Unbounded;
         anchor := StandaloneComment |};
      standalone 3 ai Read (LineCount 2) ]
  ∧ (∀ l, 4 ≤ l ≤ 5 → l ≤ last_line scenario →
       permission_at scenario ai l = Guarded Read)
  ∧ (∀ l, 6 ≤ l → permission_at scenario ai l = Guarded Write).
Proof.
  split; [reflexivity|].
  destruct (nested_bounded_region_restores scenario StandaloneComment) as (H1 & H2 & _);
    [reflexivity|].
  split; [exact H1|exact H2].
Defined.

(** The end-to-end scenario: L1 (line 2) is Write, L2 and L3 (lines 4 and
    5) are Read, L4 (line 6) is Write again. *)
Example scenario_timeline :
  map (permission_at scenario ai) (seq 1 6) =
    [Guarded Write; Guarded Write; Guarded Read; Guarded Read; Guarded Read;
     Guarded Write].
Proof. reflexivity. Qed.

End TimelineFacts.

(** * Further facts about [LanguageScopeLoader] *)

Module LoaderMore.
Import Loader LoaderFacts.

(** ** More on the resolution proper *)

Section Chains.

Variable L : gmap string lang_config.

(** A call prints at most one warning, about a language it leaves in the
    visited set. *)
Lemma flatten_messages depth lang_id visited r visited' msgs :
  flatten L depth lang_id visited = Some (r, visited', msgs) →
  msgs = [] ∨ ∃ t, msgs = [circular_warning t] ∧ t ∈ visited'.
Proof.
  revert lang_id visited r visited' msgs.
  induction depth as [|depth IH]; intros lang_id visited r visited' msgs Hx.
  all: destruct (decide (lang_id ∈ visited)) as [Hv|Hv];
    [rewrite flatten_visited in Hx by done; simplify_eq; right; eauto|].
  all: destruct (L !! lang_id) as [c|] eqn:Hc;
    [|rewrite flatten_unknown in Hx by done; simplify_eq; by left].
  all: destruct (extends c) as [p|] eqn:He;
    [|erewrite flatten_root in Hx by done; simplify_eq; by left].
  - erewrite flatten_child_exhausted in Hx by done. done.
  - erewrite flatten_child in Hx by done.
    destruct (flatten L depth p _) as [[[r1 V1] w1]|] eqn:Hy; [|done].
    simpl in Hx. simplify_eq. by apply IH in Hy.
Qed.

(** Every node type of a resolved list was declared, under that scope
    name, by the language or one of its ancestors. *)
Lemma flatten_sound depth lang_id visited r visited' msgs name tys node_type :
  flatten L depth lang_id visited = Some (r, visited', msgs) →
  r !! name = Some tys → node_type ∈ tys →
  ∃ k x c own declared,
    ancestor L k lang_id = Some x ∧ L !! x = Some c
    ∧ scopes c = Some own ∧ own !! name = Some declared ∧ node_type ∈ declared.
Proof.
  revert lang_id visited r visited' msgs tys.
  assert (∀ lang_id c (inherited : scope_map) tys,
            L !! lang_id = Some c →
            add_declared c inherited !! name = Some tys → node_type ∈ tys →
            (∃ own declared, scopes c = Some own ∧ own !! name = Some declared
                             ∧ node_type ∈ declared)
            ∨ (∃ tys', inherited !! name = Some tys' ∧ node_type ∈ tys')) as Hstep.
  { intros lang_id c inherited tys Hc Hl Hin.
    rewrite add_declared_lookup in Hl.
    destruct (scopes c) as [own|] eqn:Hown; simpl in Hl.
    - destruct (inherited !! name) as [p|], (own !! name) as [o|] eqn:Ho;
        simpl in Hl; simplify_eq.
      + apply elem_of_app in Hin as [Hin|Hin]; [right|left]; eauto.
      + right; eauto.
      + left; eauto.
    - rewrite lookup_empty in Hl.
      destruct (inherited !! name) as [p|]; simpl in Hl; simplify_eq.
      right; eauto. }
  induction depth as [|depth IH]; intros lang_id visited r visited' msgs tys Hx Hl Hin.
  all: destruct (decide (lang_id ∈ visited)) as [Hv|Hv];
    [rewrite flatten_visited in Hx by done; simplify_eq;
     by rewrite lookup_empty in Hl|].
  all: destruct (L !! lang_id) as [c|] eqn:Hc;
    [|rewrite flatten_unknown in Hx by done; simplify_eq;
      by rewrite lookup_empty in Hl].
  all: destruct (extends c) as [p|] eqn:He.
  all: try (erewrite flatten_root in Hx by done; simplify_eq;
            destruct (Hstep lang_id c ∅ tys Hc Hl Hin)
              as [(own & declared & ? & ? & ?)|(tys' & Habs & _)];
            [by exists 0, lang_id, c, own, declared
            |by rewrite lookup_empty in Habs]).
  - erewrite flatten_child_exhausted in Hx by done. done.
  - erewrite flatten_child in Hx by done.
    destruct (flatten L depth p _) as [[[r1 V1] w1]|] eqn:Hy; [|done].
    simpl in Hx. simplify_eq.
    destruct (Hstep lang_id c r1 tys Hc Hl Hin)
      as [(own & declared & ? & ? & ?)|(tys' & Hl' & Hin')].
    + by exists 0, lang_id, c, own, declared.
    + destruct (IH _ _ _ _ _ _ Hy Hl' Hin') as (k & x & cx & own & declared & Hk & Hrest).
      exists (S k), x, cx, own, declared. split; [|done].
      by rewrite (ancestor_S L k lang_id c p Hc He).
Qed.

(** What a language declares itself ends its resolved list. *)
Lemma flatten_own_last depth lang_id visited r visited' msgs c own name tys :
  lang_id ∉ visited → L !! lang_id = Some c →
  flatten L depth lang_id visited = Some (r, visited', msgs) →
  scopes c = Some own → own !! name = Some tys →
  ∃ inherited, r !! name = Some (inherited ++ tys).
Proof.
  intros Hv Hc Hx Hown Hname.
  assert (∀ inherited : scope_map,
            ∃ pre, add_declared c inherited !! name = Some (pre ++ tys)) as Hadd.
  { intros inherited. rewrite add_declared_lookup, Hown. simpl. rewrite Hname.
    destruct (inherited !! name) as [p|]; simpl; [by exists p|by exists []]. }
  destruct (extends c) as [p|] eqn:He.
  - destruct depth as [|depth].
    + erewrite flatten_child_exhausted in Hx by done. done.
    + erewrite flatten_child in Hx by done.
      destruct (flatten L depth p _) as [[[r1 V1] w1]|]; [|done].
      simpl in Hx. simplify_eq. apply Hadd.
  - erewrite flatten_root in Hx by done. simplify_eq. apply Hadd.
Qed.

(** A language on a cycle has ancestors of every order. *)
Lemma cyclic_ancestors lang_id k :
  0 < k → ancestor L k lang_id = Some lang_id →
  ∀ n, is_Some (ancestor L n lang_id).
Proof.
  intros Hk Hcyc n. induction n as [n IH] using lt_wf_ind.
  destruct (decide (n < k)) as [Hlt|Hge].
  - replace k with (n + (k - n)) in Hcyc by lia.
    rewrite ancestor_add in Hcyc.
    destruct (ancestor L n lang_id); [eauto|done].
  - replace n with (k + (n - k)) by lia.
    rewrite ancestor_add, Hcyc. simpl. apply IH. lia.
Qed.

(** A chain that ends: [x], the [k]-th ancestor, has no parent in the
    configuration (it has no ['extends'] or is not configured).  The call
    merges the whole lineage and prints nothing. *)
Lemma flatten_ends k depth lang_id visited x :
  ancestor L k lang_id = Some x → parent_of L x = None →
  (∀ i y, i ≤ k → ancestor L i lang_id = Some y → y ∉ visited) →
  k ≤ depth →
  ∃ visited',
    flatten L depth lang_id visited =
      Some (merge_lineage (lineage L (S k) lang_id), visited', []).
Proof.
  revert depth lang_id visited.
  induction k as [|k IH]; intros depth lang_id visited Hx Hend Hfresh Hle.
  - simpl in Hx. simplify_eq.
    pose proof (Hfresh 0 x ltac:(lia) eq_refl) as Hv.
    unfold parent_of in Hend.
    destruct (L !! x) as [c|] eqn:Hc; simpl in Hend.
    + erewrite flatten_root by done. simpl. rewrite Hc, Hend. eauto.
    + rewrite flatten_unknown by done. simpl. rewrite Hc. eauto.
  - pose proof (Hfresh 0 lang_id ltac:(lia) eq_refl) as Hv.
    destruct (ancestor_S_inv L _ _ _ Hx) as (c & p & Hc & He & Hp).
    destruct depth as [|depth]; [lia|].
    erewrite flatten_child by done.
    destruct (IH depth p ({[lang_id]} ∪ visited)) as [V' ->]; [done|done| |lia|].
    + intros i y Hi Hy.
      rewrite <- (ancestor_S L i lang_id c p Hc He) in Hy.
      pose proof (Hfresh (S i) y ltac:(lia) Hy).
      assert (y ≠ lang_id).
      { intros ->.
        destruct (cyclic_ancestors lang_id (S i) ltac:(lia) Hy (S (S k))) as [z Hz].
        replace (S (S k)) with (S k + 1) in Hz by lia.
        rewrite ancestor_add, Hx in Hz. simpl in Hz. by rewrite Hend in Hz. }
      set_solver.
    + simpl. rewrite Hc, He. eauto.
Qed.

(** The same from a fresh visited set, within the allowance of
    [resolve_language_scopes]. *)
Lemma flatten_ends_fresh k lang_id x :
  ancestor L k lang_id = Some x → parent_of L x = None →
  ∃ visited',
    flatten L (size L) lang_id ∅ =
      Some (merge_lineage (lineage L (S k) lang_id), visited', []).
Proof.
  intros Hx Hend.
  destruct (flatten_total L (size L) lang_id ∅ (unvisited_size L ∅)) as [y Hy].
  destruct (flatten_ends k (k `max` size L) lang_id ∅ x Hx Hend) as [V' HV'];
    [set_solver|lia|].
  pose proof (flatten_mono L _ (k `max` size L) _ _ _ Hy ltac:(lia)) as Hy'.
  rewrite HV' in Hy'. simplify_eq. eauto.
Qed.

(** A language that is not among its parent's ancestors resolves to what
    its parent resolves to, with its own declarations added. *)
Lemma resolution_child lang_id c parent :
  L !! lang_id = Some c → extends c = Some parent →
  (∀ k, ancestor L k parent ≠ Some lang_id) →
  resolution L lang_id = add_declared c (resolution L parent).
Proof.
  intros Hc He Hacyclic. unfold resolution.
  pose proof (unvisited_shrinks L lang_id ∅ c ltac:(set_solver) Hc) as Hshrink.
  pose proof (unvisited_size L ∅) as Hsize.
  destruct (size L) as [|n] eqn:Hn; [lia|].
  erewrite flatten_child by first [done|set_solver].
  destruct (flatten_total L n parent ({[lang_id]} ∪ ∅)) as [[[r1 V1] w1] H1]; [lia|].
  rewrite H1.
  pose proof (flatten_mono L n (S n) parent _ _ H1 ltac:(lia)) as H1'.
  assert ((λ x, x.1.1) <$> flatten L (S n) parent ({[lang_id]} ∪ ∅)
          = (λ x, x.1.1) <$> flatten L (S n) parent ∅) as Hagree.
  { apply flatten_agree. intros k x Hx.
    assert (x ≠ lang_id) by (intros ->; by apply (Hacyclic k)). set_solver. }
  rewrite H1' in Hagree.
  destruct (flatten L (S n) parent ∅) as [[[r2 V2] w2]|] eqn:H2; [|done].
  injection Hagree as Hr. simpl in Hr. by subst r2.
Qed.

End Chains.

(** ** Loading the document *)

(** X1. Once [load_config] has returned a document that it did not make
    up (a cached one, or one read from the file), every later call returns
    that same document and changes nothing, whatever the file has become:
    the file is read at most once. *)
Theorem load_config_success_is_cached file self c s :
  available file self →
  load_config file self = (c, s) →
  _config s = Some c
  ∧ stdout s = stdout self
  ∧ ∀ file', load_config file' s = (c, s).
Proof.
  intros Havail Hload. unfold load_config in *.
  destruct (_config self) as [c0|] eqn:Hcfg;
    [|destruct Havail as [[? ?]|[c0 ->]]; [congruence|]].
  all: simplify_eq; simpl; rewrite ?Hcfg; done.
Qed.

Lemma load_config_success_is_cached_witness :
  available (ReadOk web_config) init
  ∧ ∀ file', load_config file' (set_config web_config init)
             = (web_config, set_config web_config init).
Proof.
  assert (available (ReadOk web_config) init) as Havail
    by (right; exists web_config; reflexivity).
  split; [exact Havail|].
  apply (load_config_success_is_cached (ReadOk web_config) init web_config
           (set_config web_config init) Havail eq_refl).
Defined.

(** X2. A failed load is not cached: with nothing cached and an unreadable
    file, [load_config] prints the failure, hands out the fallback
    document with no languages, and keeps [_config] empty, so that a later
    call reads the file again and gets its content once it is readable. *)
Theorem load_config_failure_is_retried e self c :
  _config self = None →
  load_config (ReadError e) self = (fallback_config, print (load_failure e) self)
  ∧ known_languages (ReadError e) self = ∅
  ∧ _config (load_config (ReadError e) self).2 = None
  ∧ (load_config (ReadOk c) (load_config (ReadError e) self).2).1 = c
  ∧ _config (load_config (ReadOk c) (load_config (ReadError e) self).2).2 = Some c.
Proof.
  intros Hcfg. unfold known_languages, load_config. rewrite Hcfg. simpl.
  rewrite Hcfg. done.
Qed.

Lemma load_config_failure_is_retried_witness :
  _config init = None
  ∧ (load_config (ReadOk web_config)
       (load_config (ReadError "No such file") init).2).1 = web_config.
Proof.
  split; [reflexivity|].
  apply (load_config_failure_is_retried "No such file" init web_config eq_refl).
Defined.

(** X3. The table of resolved scopes, however, is cached even when the
    load failed.  On a loader with nothing cached and an unreadable file,
    [get_all_scopes] prints the failure once and caches the empty table;
    from then on every language is unsupported and no node type is in any
    scope, whatever the file has become. *)
Theorem failed_first_use_sticks e self :
  _config self = None → _resolved_scopes self = None →
  ∃ s1,
    get_all_scopes (ReadError e) self = Some (∅, s1)
    ∧ stdout s1 = stdout self ++ [load_failure e]
    ∧ ∀ file' lang_id node_type scope,
        get_language_scopes file' lang_id s1 = Some (None, s1)
        ∧ is_node_type_in_scope file' lang_id node_type scope s1 = Some (false, s1).
Proof.
  intros Hcfg Hcache.
  exists (set_resolved_scopes ∅ (print (load_failure e) self)).
  split_and!.
  - unfold get_all_scopes, load_config. rewrite Hcache, Hcfg. simpl.
    rewrite map_to_list_empty. done.
  - done.
  - intros file' lang_id node_type scope.
    unfold is_node_type_in_scope, get_language_scopes, get_all_scopes. simpl.
    by rewrite lookup_empty.
Qed.

Lemma failed_first_use_sticks_witness :
  _config init = None ∧ _resolved_scopes init = None
  ∧ ∃ s1,
      get_all_scopes (ReadError "No such file") init = Some (∅, s1)
      ∧ stdout s1 = stdout init ++ [load_failure "No such file"]
      ∧ ∀ file' lang_id node_type scope,
          get_language_scopes file' lang_id s1 = Some (None, s1)
          ∧ is_node_type_in_scope file' lang_id node_type scope s1
            = Some (false, s1).
Proof.
  split; [reflexivity|]. split; [reflexivity|].
  apply (failed_first_use_sticks "No such file" init); reflexivity.
Defined.

(** ** What a resolution leaves behind *)

Section State.

Variable file : read_result.

Lemma config_emit msgs self : _config (emit msgs self) = _config self.
Proof.
  revert self. induction msgs as [|m msgs IH]; intros self; [done|].
  by rewrite emit_cons, IH.
Qed.

Lemma available_load self : available file self → available file (load_config file self).2.
Proof.
  intros [[c Hc]|[c ->]]; unfold load_config.
  - rewrite Hc. left. simpl. rewrite Hc. eauto.
  - right. eauto.
Qed.

Lemma stdout_load self :
  available file self → stdout (load_config file self).2 = stdout self.
Proof.
  intros [[c Hc]|[c ->]]; unfold load_config.
  - by rewrite Hc.
  - by destruct (_config self).
Qed.

Lemma stdout_after lang_id visited msgs self :
  available file self →
  stdout (after file lang_id visited msgs self) = stdout self ++ msgs.
Proof.
  intros Havail. unfold after. rewrite stdout_emit.
  case_decide; [done|]. by rewrite stdout_load.
Qed.

Lemma resolution_flatten (L : gmap string lang_config) lang_id :
  ∃ visited' msgs,
    flatten L (size L) lang_id ∅ = Some (resolution L lang_id, visited', msgs).
Proof.
  unfold resolution.
  destruct (flatten_total L (size L) lang_id ∅ (unvisited_size L ∅))
    as [[[r V] w] ->]. eauto.
Qed.

End State.

(** X4. [resolve_language_scopes] never touches the table of resolved
    scopes and never changes which languages the loader knows; the only
    thing it may change in [_config] is to fill it, when it was empty,
    with the content of the file. *)
Theorem resolve_leaves_cache file lang_id visited self r visited' self' :
  resolve_language_scopes file lang_id visited self = Some (r, visited', self') →
  _resolved_scopes self' = _resolved_scopes self
  ∧ known_languages file self' = known_languages file self
  ∧ (_config self' = _config self
     ∨ ∃ c, file = ReadOk c ∧ _config self = None ∧ _config self' = Some c).
Proof.
  rewrite resolve_language_scopes_flatten. intros Hres.
  destruct (flatten _ _ lang_id _) as [[[r1 V1] w1]|]; [|done].
  simpl in Hres. simplify_eq. split_and!.
  - apply resolved_scopes_after.
  - apply known_languages_after.
  - unfold after. rewrite config_emit. case_decide; [by left|].
    unfold load_config. destruct (_config self) as [c|] eqn:Hc; [by left|].
    destruct file as [c|e]; simpl; [right; eauto|by left].
Qed.

Lemma resolve_leaves_cache_witness :
  ∃ r visited' self',
    resolve_language_scopes (ReadOk web_config) "typescript" None init
    = Some (r, visited', self')
    ∧ _resolved_scopes self' = _resolved_scopes init
    ∧ known_languages (ReadOk web_config) self'
      = known_languages (ReadOk web_config) init.
Proof.
  destruct (resolve_language_scopes (ReadOk web_config) "typescript" None init)
    as [[[r V] s]|] eqn:Hres; [|exfalso; vm_compute in Hres; discriminate Hres].
  exists r, V, s. split; [reflexivity|].
  destruct (resolve_leaves_cache (ReadOk web_config) "typescript" None init r V s Hres)
    as (H1 & H2 & _).
  split; [exact H1|exact H2].
Defined.

(** X5. One call of [resolve_language_scopes] on an available document
    prints at most one message, and that message is the circular warning
    about a language that the call leaves in the visited set. *)
Theorem resolve_prints_at_most_one_warning file lang_id visited self r visited' self' :
  available file self →
  resolve_language_scopes file lang_id visited self = Some (r, visited', self') →
  stdout self' = stdout self
  ∨ ∃ t, t ∈ visited' ∧ stdout self' = stdout self ++ [circular_warning t].
Proof.
  intros Havail. rewrite resolve_language_scopes_flatten. intros Hres.
  destruct (flatten _ _ lang_id _) as [[[r1 V1] w1]|] eqn:Hflat; [|done].
  simpl in Hres. simplify_eq. rewrite stdout_after by done.
  destruct (flatten_messages _ _ _ _ _ _ _ Hflat) as [->|(t & -> & Ht)].
  - left. by rewrite app_nil_r.
  - right. eauto.
Qed.

Lemma resolve_prints_at_most_one_warning_witness :
  available (ReadOk two_cycle) init
  ∧ ∃ r visited' self',
      resolve_language_scopes (ReadOk two_cycle) "b" None init
      = Some (r, visited', self')
      ∧ (stdout self' = stdout init
         ∨ ∃ t, t ∈ visited'
                ∧ stdout self' = stdout init ++ [circular_warning t]).
Proof.
  assert (available (ReadOk two_cycle) init) as Havail
    by (right; exists two_cycle; reflexivity).
  split; [exact Havail|].
  destruct (resolve_language_scopes (ReadOk two_cycle) "b" None init)
    as [[[r V] s]|] eqn:Hres; [|exfalso; vm_compute in Hres; discriminate Hres].
  exists r, V, s. split; [reflexivity|].
  exact (resolve_prints_at_most_one_warning (ReadOk two_cycle) "b" None init r V s
           Havail Hres).
Defined.

(** ** Inheritance along the whole chain *)

(** X6. When the chain of a language ends (its [k]-th ancestor [x] has no
    ['extends'], or is not configured at all), [resolve_language_scopes]
    returns the merge of the declarations of the whole chain, the farthest
    ancestor first and the language itself last, and prints no warning. *)
Theorem ending_chain_resolution file self lang_id k x :
  ancestor (known_languages file self) k lang_id = Some x →
  parent_of (known_languages file self) x = None →
  ∃ visited',
    resolve_language_scopes file lang_id None self
    = Some (merge_lineage (lineage (known_languages file self) (S k) lang_id),
            visited', (load_config file self).2).
Proof.
  intros Hx Hend. rewrite resolve_language_scopes_flatten. simpl.
  destruct (flatten_ends_fresh _ k lang_id x Hx Hend) as [V' ->]. simpl.
  exists V'. unfold after. rewrite decide_False by set_solver. done.
Qed.

Lemma ending_chain_resolution_witness :
  ancestor (known_languages (ReadOk web_config) init) 1 "typescript"
  = Some "javascript"
  ∧ parent_of (known_languages (ReadOk web_config) init) "javascript" = None
  ∧ ∃ visited',
      resolve_language_scopes (ReadOk web_config) "typescript" None init
      = Some (merge_lineage
                (lineage (known_languages (ReadOk web_config) init) 2 "typescript"),
              visited', (load_config (ReadOk web_config) init).2).
Proof.
  split; [reflexivity|]. split; [reflexivity|].
  apply (ending_chain_resolution (ReadOk web_config) init "typescript" 1 "javascript");
    reflexivity.
Defined.

(** X7. An ['extends'] that names a language without definition is
    ignored silently: the language resolves to its own declarations. *)
Theorem dangling_extends_ignored file self lang_id c parent :
  known_languages file self !! lang_id = Some c →
  extends c = Some parent →
  known_languages file self !! parent = None →
  ∃ visited',
    resolve_language_scopes file lang_id None self
    = Some (default ∅ (scopes c), visited', (load_config file self).2).
Proof.
  intros Hc He Hp. rewrite resolve_language_scopes_flatten. simpl.
  destruct (flatten_ends_fresh (known_languages file self) 1 lang_id parent)
    as [V' ->].
  - by rewrite (ancestor_S _ 0 lang_id c parent Hc He).
  - unfold parent_of. by rewrite Hp.
  - exists V'. simpl. rewrite Hc, He, Hp. simpl.
    unfold after. rewrite decide_False by set_solver. simpl.
    unfold add_declared. destruct (scopes c) as [own|]; simpl; [|done].
    by rewrite apply_scopes_empty.
Qed.

Lemma dangling_extends_ignored_witness :
  known_languages (ReadOk alias_config) init !! "vue" = Some vue
  ∧ extends vue = Some "html"
  ∧ known_languages (ReadOk alias_config) init !! "html" = None
  ∧ ∃ visited',
      resolve_language_scopes (ReadOk alias_config) "vue" None init
      = Some (default ∅ (scopes vue), visited',
              (load_config (ReadOk alias_config) init).2).
Proof.
  split; [reflexivity|]. split; [reflexivity|]. split; [reflexivity|].
  apply (dangling_extends_ignored (ReadOk alias_config) init "vue" vue "html");
    reflexivity.
Defined.

(** X8. A language that declares no ['scopes'] and is not among its
    parent's ancestors resolves to exactly the mapping of its parent. *)
Theorem alias_resolves_as_parent file self lang_id c parent :
  known_languages file self !! lang_id = Some c →
  extends c = Some parent → scopes c = None →
  (∀ k, ancestor (known_languages file self) k parent ≠ Some lang_id) →
  ∃ m visited s visitedp sp,
    resolve_language_scopes file lang_id None self = Some (m, visited, s)
    ∧ resolve_language_scopes file parent None self = Some (m, visitedp, sp).
Proof.
  intros Hc He Hnone Hacyclic.
  destruct (resolve_language_scopes_fresh file lang_id self) as (V & w & ->).
  destruct (resolve_language_scopes_fresh file parent self) as (Vp & wp & ->).
  rewrite (resolution_child _ lang_id c parent Hc He Hacyclic).
  unfold add_declared. rewrite Hnone. eauto 10.
Qed.

Lemma alias_resolves_as_parent_witness :
  known_languages (ReadOk alias_config) init !! "jsx" = Some jsx
  ∧ ∃ m visited s visitedp sp,
      resolve_language_scopes (ReadOk alias_config) "jsx" None init
      = Some (m, visited, s)
      ∧ resolve_language_scopes (ReadOk alias_config) "javascript" None init
        = Some (m, visitedp, sp).
Proof.
  split; [reflexivity|].
  apply (alias_resolves_as_parent (ReadOk alias_config) init "jsx" jsx "javascript");
    [reflexivity|reflexivity|reflexivity|].
  intros [|k]; [discriminate|].
  change (parent_of (known_languages (ReadOk alias_config) init) "javascript"
            ≫= ancestor (known_languages (ReadOk alias_config) init) k
          ≠ Some "jsx").
  replace (parent_of (known_languages (ReadOk alias_config) init) "javascript")
    with (@None string) by reflexivity.
  discriminate.
Defined.

(** ** What the resolved lists contain *)

(** X9. Whatever the configuration (cyclic or not), the list that a
    configured language declares for a scope name ends the list it
    resolves to for that name. *)
Theorem own_entries_last file self lang_id c own name tys :
  known_languages file self !! lang_id = Some c →
  scopes c = Some own → own !! name = Some tys →
  ∃ r visited' self' inherited,
    resolve_language_scopes file lang_id None self = Some (r, visited', self')
    ∧ r !! name = Some (inherited ++ tys).
Proof.
  intros Hc Hown Hname.
  destruct (resolve_language_scopes_fresh file lang_id self) as (V & w & Hres).
  destruct (resolution_flatten (known_languages file self) lang_id) as (V' & w' & Hflat).
  assert (lang_id ∉ (∅ : gset string)) as Hfresh by set_solver.
  destruct (flatten_own_last _ _ _ _ _ _ _ c own name tys Hfresh Hc Hflat
              Hown Hname) as [inherited Hl].
  eauto 10.
Qed.

Lemma own_entries_last_witness :
  known_languages (ReadOk two_cycle) init !! "a"
  = Some {| extends := Some "b"; scopes := Some {[ "func" := ["fa"] ]} |}
  ∧ ∃ r visited' self' inherited,
      resolve_language_scopes (ReadOk two_cycle) "a" None init
      = Some (r, visited', self')
      ∧ r !! "func" = Some (inherited ++ ["fa"]).
Proof.
  split; [reflexivity|].
  apply (own_entries_last (ReadOk two_cycle) init "a"
           {| extends := Some "b"; scopes := Some {[ "func" := ["fa"] ]} |}
           {[ "func" := ["fa"] ]} "func" ["fa"]); reflexivity.
Defined.

(** X10. [resolve_language_scopes] invents nothing: every node type in a
    resolved list was declared, under that very scope name, by the
    language or by one of its ancestors. *)
Theorem resolved_entries_declared file self lang_id visited r visited' self'
    name tys node_type :
  resolve_language_scopes file lang_id visited self = Some (r, visited', self') →
  r !! name = Some tys → node_type ∈ tys →
  ∃ k x c own declared,
    ancestor (known_languages file self) k lang_id = Some x
    ∧ known_languages file self !! x = Some c
    ∧ scopes c = Some own ∧ own !! name = Some declared ∧ node_type ∈ declared.
Proof.
  rewrite resolve_language_scopes_flatten. intros Hres Hl Hin.
  destruct (flatten _ _ lang_id _) as [[[r1 V1] w1]|] eqn:Hflat; [|done].
  simpl in Hres. simplify_eq.
  exact (flatten_sound _ _ _ _ _ _ _ _ _ _ Hflat Hl Hin).
Qed.

Lemma resolved_entries_declared_witness :
  ∃ r visited' self',
    resolve_language_scopes (ReadOk web_config) "typescript" None init
    = Some (r, visited', self')
    ∧ r !! "class" = Some ["class_declaration"]
    ∧ ∃ k x c own declared,
        ancestor (known_languages (ReadOk web_config) init) k "typescript" = Some x
        ∧ known_languages (ReadOk web_config) init !! x = Some c
        ∧ scopes c = Some own ∧ own !! "class" = Some declared
        ∧ "class_declaration" ∈ declared.
Proof.
  destruct (resolve_language_scopes (ReadOk web_config) "typescript" None init)
    as [[[r V] s]|] eqn:Hres; [|exfalso; vm_compute in Hres; discriminate Hres].
  assert (r !! "class" = Some ["class_declaration"]) as Hl.
  { assert (Some (r, V, s)
            = resolve_language_scopes (ReadOk web_config) "typescript" None init)
      as Heq by (symmetry; exact Hres).
    vm_compute in Heq. injection Heq as -> _ _. reflexivity. }
  exists r, V, s. split; [reflexivity|]. split; [exact Hl|].
  apply (resolved_entries_declared (ReadOk web_config) init "typescript" None r V s
           "class" ["class_declaration"] "class_declaration" Hres Hl).
  apply list_elem_of_here.
Defined.

(** ** The table of all scopes and the membership test *)

Lemma get_all_scopes_lookup file self :
  coherent file self →
  ∃ all_scopes s,
    get_all_scopes file self = Some (all_scopes, s)
    ∧ coherent file s
    ∧ known_languages file s = known_languages file self
    ∧ _resolved_scopes s = Some all_scopes
    ∧ ∀ lang_id, all_scopes !! lang_id =
        (λ _, resolution (known_languages file self) lang_id)
          <$> (known_languages file self !! lang_id).
Proof.
  intros Hco.
  destruct (get_all_scopes_spec file self) as (m & s & Hget & Hc & HL & Hcase).
  exists m, s. split_and!; [done| |done|done|].
  - by apply (get_all_scopes_coherent file self m s).
  - intros lang_id. unfold coherent in Hco.
    destruct (_resolved_scopes self) as [cache|]; [|done].
    destruct Hcase as [-> ->]. rewrite Hco, resolved_mapping_resolution.
    by destruct (known_languages file self !! lang_id).
Qed.

Lemma is_node_type_in_scope_coherent file self lang_id node_type scope :
  coherent file self →
  ∃ s,
    is_node_type_in_scope file lang_id node_type scope self =
      Some (match known_languages file self !! lang_id with
            | Some _ =>
                bool_decide (node_type ∈
                  default [] (resolution (known_languages file self) lang_id !! scope))
            | None => false
            end, s)
    ∧ coherent file s
    ∧ known_languages file s = known_languages file self.
Proof.
  intros Hco.
  destruct (get_all_scopes_lookup file self Hco) as (m & s & Hget & Hco' & HL & _ & Hl).
  exists s. split; [|done].
  unfold is_node_type_in_scope, get_language_scopes. rewrite Hget. simpl.
  rewrite Hl. destruct (known_languages file self !! lang_id) as [c|]; simpl; [|done].
  destruct (bool_decide (resolution (known_languages file self) lang_id = ∅)) eqn:He;
    simpl; [|done].
  apply bool_decide_eq_true in He. rewrite He, lookup_empty. simpl.
  do 2 f_equal; symmetry; apply bool_decide_eq_false; apply not_elem_of_nil.
Qed.

(** X11. The table that [get_all_scopes] returns on a coherent loader has
    an entry for every configured language, cyclic ones included, and for
    no other id. *)
Theorem get_all_scopes_domain file self :
  coherent file self →
  ∃ all_scopes s,
    get_all_scopes file self = Some (all_scopes, s)
    ∧ dom all_scopes = dom (known_languages file self).
Proof.
  intros Hco.
  destruct (get_all_scopes_lookup file self Hco) as (m & s & Hget & _ & _ & _ & Hl).
  exists m, s. split; [done|].
  apply set_eq. intros lang_id. rewrite !elem_of_dom, Hl.
  by rewrite fmap_is_Some.
Qed.

Lemma get_all_scopes_domain_witness :
  coherent (ReadOk two_cycle) init
  ∧ ∃ all_scopes s,
      get_all_scopes (ReadOk two_cycle) init = Some (all_scopes, s)
      ∧ dom all_scopes = dom (known_languages (ReadOk two_cycle) init).
Proof.
  assert (coherent (ReadOk two_cycle) init) as Hco by exact I.
  split; [exact Hco|].
  exact (get_all_scopes_domain (ReadOk two_cycle) init Hco).
Defined.

(** X12. The cache agrees with a fresh computation: an entry of the table
    returned by [get_all_scopes] is, for a configured language, exactly
    the mapping that [resolve_language_scopes] returns afterwards. *)
Theorem cache_agrees_with_resolution file self all_scopes s lang_id m :
  coherent file self →
  get_all_scopes file self = Some (all_scopes, s) →
  all_scopes !! lang_id = Some m
  ↔ is_Some (known_languages file self !! lang_id)
    ∧ ∃ visited' s', resolve_language_scopes file lang_id None s = Some (m, visited', s').
Proof.
  intros Hco Hget.
  destruct (get_all_scopes_lookup file self Hco) as (m0 & s0 & Hget0 & _ & HL & _ & Hl).
  rewrite Hget in Hget0. simplify_eq. rewrite Hl.
  destruct (resolve_language_scopes_fresh file lang_id s0) as (V & w & Hres).
  rewrite HL in Hres. rewrite Hres.
  destruct (known_languages file self !! lang_id) as [c|]; simpl.
  - split.
    + intros [= <-]. split; [eauto|]. eauto.
    + intros (_ & V' & s' & Heq). congruence.
  - split; [done|]. intros ([? ?] & _). done.
Qed.

Lemma cache_agrees_with_resolution_witness :
  coherent (ReadOk web_config) init
  ∧ ∃ all_scopes s m,
      get_all_scopes (ReadOk web_config) init = Some (all_scopes, s)
      ∧ all_scopes !! "typescript" = Some m
      ∧ ∃ visited' s',
          resolve_language_scopes (ReadOk web_config) "typescript" None s
          = Some (m, visited', s').
Proof.
  assert (coherent (ReadOk web_config) init) as Hco by exact I.
  split; [exact Hco|].
  destruct (get_all_scopes (ReadOk web_config) init) as [[all s]|] eqn:Hget;
    [|exfalso; vm_compute in Hget; discriminate Hget].
  destruct (all !! "typescript") as [m|] eqn:Hm.
  - exists all, s, m. split; [reflexivity|]. split; [exact Hm|].
    apply (cache_agrees_with_resolution (ReadOk web_config) init all s "typescript" m
             Hco Hget). exact Hm.
  - exfalso.
    assert (Some (all, s) = get_all_scopes (ReadOk web_config) init) as Heq
      by (symmetry; exact Hget).
    vm_compute in Heq. injection Heq as -> _. vm_compute in Hm. discriminate Hm.
Defined.

(** X13. On a coherent loader, [is_node_type_in_scope] answers True for
    every node type that the language itself declares under the scope. *)
Theorem declared_node_type_in_scope file self lang_id c own scope tys node_type :
  coherent file self →
  known_languages file self !! lang_id = Some c →
  scopes c = Some own → own !! scope = Some tys → node_type ∈ tys →
  ∃ s, is_node_type_in_scope file lang_id node_type scope self = Some (true, s).
Proof.
  intros Hco Hc Hown Hscope Hin.
  destruct (is_node_type_in_scope_coherent file self lang_id node_type scope Hco)
    as (s & -> & _).
  exists s. rewrite Hc. do 2 f_equal. apply bool_decide_eq_true.
  destruct (resolution_flatten (known_languages file self) lang_id) as (V & w & Hflat).
  assert (lang_id ∉ (∅ : gset string)) as Hfresh by set_solver.
  destruct (flatten_own_last _ _ _ _ _ _ _ c own scope tys Hfresh Hc Hflat Hown Hscope)
    as [inherited ->].
  simpl. apply elem_of_app. by right.
Qed.

Lemma declared_node_type_in_scope_witness :
  coherent (ReadOk two_cycle) init
  ∧ ∃ s, is_node_type_in_scope (ReadOk two_cycle) "a" "fa" "func" init
         = Some (true, s).
Proof.
  assert (coherent (ReadOk two_cycle) init) as Hco by exact I.
  split; [exact Hco|].
  apply (declared_node_type_in_scope (ReadOk two_cycle) init "a"
           {| extends := Some "b"; scopes := Some {[ "func" := ["fa"] ]} |}
           {[ "func" := ["fa"] ]} "func" ["fa"] "fa" Hco);
    [reflexivity|reflexivity|reflexivity|apply list_elem_of_here].
Defined.

(** X14. Membership is inherited: when a language is not among its
    parent's ancestors, every node type that [is_node_type_in_scope]
    accepts for the parent under a scope is accepted for the language
    under that scope. *)
Theorem in_scope_inherited file self lang_id c parent node_type scope s1 :
  coherent file self →
  known_languages file self !! lang_id = Some c →
  extends c = Some parent →
  (∀ k, ancestor (known_languages file self) k parent ≠ Some lang_id) →
  is_node_type_in_scope file parent node_type scope self = Some (true, s1) →
  ∃ s2, is_node_type_in_scope file lang_id node_type scope s1 = Some (true, s2).
Proof.
  intros Hco Hc He Hacyclic Hparent.
  destruct (is_node_type_in_scope_coherent file self parent node_type scope Hco)
    as (s & Hp & Hco1 & HL1).
  rewrite Hparent in Hp. injection Hp as Hb <-.
  destruct (is_node_type_in_scope_coherent file s1 lang_id node_type scope Hco1)
    as (s2 & -> & _).
  exists s2. rewrite HL1, Hc. do 2 f_equal. apply bool_decide_eq_true.
  destruct (known_languages file self !! parent) as [cp|]; [|done].
  symmetry in Hb. apply bool_decide_eq_true in Hb.
  rewrite (resolution_child _ lang_id c parent Hc He Hacyclic), add_declared_lookup.
  destruct (resolution (known_languages file self) parent !! scope) as [p|];
    simpl in Hb; [|by apply not_elem_of_nil in Hb].
  destruct (default ∅ (scopes c) !! scope) as [o|]; simpl; [|done].
  apply elem_of_app. by left.
Qed.

Lemma in_scope_inherited_witness :
  coherent (ReadOk web_config) init
  ∧ ∃ s1 s2,
      is_node_type_in_scope (ReadOk web_config) "javascript" "arrow_function" "func"
        init = Some (true, s1)
      ∧ is_node_type_in_scope (ReadOk web_config) "typescript" "arrow_function" "func"
          s1 = Some (true, s2).
Proof.
  assert (coherent (ReadOk web_config) init) as Hco by exact I.
  split; [exact Hco|].
  destruct (is_node_type_in_scope (ReadOk web_config) "javascript" "arrow_function"
              "func" init) as [[b s1]|] eqn:Hs1;
    [|exfalso; vm_compute in Hs1; discriminate Hs1].
  assert (b = true) as ->.
  { assert (Some (b, s1)
            = is_node_type_in_scope (ReadOk web_config) "javascript" "arrow_function"
                "func" init) as Heq by (symmetry; exact Hs1).
    vm_compute in Heq. injection Heq as -> _. reflexivity. }
  exists s1.
  destruct (in_scope_inherited (ReadOk web_config) init "typescript" typescript
              "javascript" "arrow_function" "func" s1 Hco) as [s2 Hs2];
    [reflexivity|reflexivity| |exact Hs1|].
  { intros [|k]; [discriminate|].
    change (parent_of (known_languages (ReadOk web_config) init) "javascript"
              ≫= ancestor (known_languages (ReadOk web_config) init) k
            ≠ Some "typescript").
    replace (parent_of (known_languages (ReadOk web_config) init) "javascript")
      with (@None string) by reflexivity.
    discriminate. }
  exists s2. split; [reflexivity|exact Hs2].
Defined.

(** X15. On a coherent loader, [is_node_type_in_scope] answers True only
    for a node type that the language or one of its ancestors declares
    under that scope. *)
Theorem in_scope_declared_by_ancestor file self lang_id node_type scope s :
  coherent file self →
  is_node_type_in_scope file lang_id node_type scope self = Some (true, s) →
  ∃ k x c own declared,
    ancestor (known_languages file self) k lang_id = Some x
    ∧ known_languages file self !! x = Some c
    ∧ scopes c = Some own ∧ own !! scope = Some declared ∧ node_type ∈ declared.
Proof.
  intros Hco Htrue.
  destruct (is_node_type_in_scope_coherent file self lang_id node_type scope Hco)
    as (s' & Hval & _).
  rewrite Htrue in Hval. injection Hval as Hb _.
  destruct (known_languages file self !! lang_id) as [c|]; [|done].
  symmetry in Hb. apply bool_decide_eq_true in Hb.
  destruct (resolution_flatten (known_languages file self) lang_id) as (V & w & Hflat).
  destruct (resolution (known_languages file self) lang_id !! scope) as [tys|] eqn:Hl;
    simpl in Hb; [|by apply not_elem_of_nil in Hb].
  exact (flatten_sound _ _ _ _ _ _ _ _ _ _ Hflat Hl Hb).
Qed.

Lemma in_scope_declared_by_ancestor_witness :
  coherent (ReadOk two_cycle) init
  ∧ ∃ s,
      is_node_type_in_scope (ReadOk two_cycle) "a" "fa" "func" init = Some (true, s)
      ∧ ∃ k x c own declared,
          ancestor (known_languages (ReadOk two_cycle) init) k "a" = Some x
          ∧ known_languages (ReadOk two_cycle) init !! x = Some c
          ∧ scopes c = Some own ∧ own !! "func" = Some declared ∧ "fa" ∈ declared.
Proof.
  assert (coherent (ReadOk two_cycle) init) as Hco by exact I.
  split; [exact Hco|].
  destruct (is_node_type_in_scope (ReadOk two_cycle) "a" "fa" "func" init)
    as [[b s]|] eqn:Hrun; [|exfalso; vm_compute in Hrun; discriminate Hrun].
  assert (b = true) as ->.
  { assert (Some (b, s) = is_node_type_in_scope (ReadOk two_cycle) "a" "fa" "func" init)
      as Heq by (symmetry; exact Hrun).
    vm_compute in Heq. injection Heq as -> _. reflexivity. }
  exists s. split; [reflexivity|].
  exact (in_scope_declared_by_ancestor (ReadOk two_cycle) init "a" "fa" "func" s
           Hco Hrun).
Defined.

(** [get_language_scopes] on a language without definition, in the
    TypeScript configuration. *)
Lemma get_language_scopes_unknown_witness :
  coherent (ReadOk web_config) init
  ∧ known_languages (ReadOk web_config) init !! "cobol" = None
  ∧ ∃ self', get_language_scopes (ReadOk web_config) "cobol" init = Some (None, self').
Proof.
  assert (coherent (ReadOk web_config) init) as Hco by exact I.
  split; [exact Hco|]. split; [reflexivity|].
  exact (get_language_scopes_unknown (ReadOk web_config) init "cobol" Hco eq_refl).
Defined.

(** ** Diagnostics of a whole configuration *)

Lemma available_set_resolved file r self :
  available file self → available file (set_resolved_scopes r self).
Proof. intros [Hc|Hf]; [by left|by right]. Qed.

Lemma resolve_each_quiet file lang_ids self self' :
  available file self →
  (∀ lang_id, lang_id ∈ lang_ids →
     ∃ k x, ancestor (known_languages file self) k lang_id = Some x
            ∧ parent_of (known_languages file self) x = None) →
  resolve_each file lang_ids self = Some self' →
  stdout self' = stdout self.
Proof.
  revert self. induction lang_ids as [|id ids IH]; intros self Havail Hends Hrun.
  - simpl in Hrun. by simplify_eq.
  - simpl in Hrun.
    destruct (Hends id ltac:(rewrite elem_of_cons; tauto)) as (k & x & Hx & Hend).
    rewrite resolve_language_scopes_flatten in Hrun. simpl in Hrun.
    destruct (flatten_ends_fresh _ k id x Hx Hend) as [V' Hflat].
    rewrite Hflat in Hrun. simpl in Hrun.
    apply IH in Hrun.
    + rewrite Hrun. simpl. rewrite stdout_after by done. by rewrite app_nil_r.
    + apply available_set_resolved. unfold after.
      rewrite decide_False by set_solver. by apply available_load.
    + intros lang_id Hin.
      rewrite known_languages_set_resolved, known_languages_after.
      apply Hends. rewrite elem_of_cons. tauto.
Qed.

(** X17. When the document is available and the chain of every
    configured language ends, filling the cache prints nothing: no
    circular warning is raised for a configuration without cycle. *)
Theorem acyclic_configuration_is_quiet file self :
  available file self →
  _resolved_scopes self = None →
  (∀ lang_id c, known_languages file self !! lang_id = Some c →
     ∃ k x, ancestor (known_languages file self) k lang_id = Some x
            ∧ parent_of (known_languages file self) x = None) →
  ∃ all_scopes s,
    get_all_scopes file self = Some (all_scopes, s)
    ∧ stdout s = stdout self.
Proof.
  intros Havail Hcache Hends.
  destruct (get_all_scopes_spec file self) as (m & s & Hget & _).
  exists m, s. split; [done|].
  unfold get_all_scopes in Hget. rewrite Hcache in Hget.
  destruct (load_config file self) as [cfg self0] eqn:Hload.
  assert (known_languages file self = default ∅ (languages cfg)) as HL
    by (unfold known_languages; by rewrite Hload).
  assert (self0 = (load_config file self).2) as Hself0 by (by rewrite Hload).
  rewrite <- HL in Hget.
  destruct (resolve_each file _ (set_resolved_scopes ∅ self0)) as [s'|] eqn:Hrun;
    [|done].
  simpl in Hget. simplify_eq.
  apply resolve_each_quiet in Hrun.
  - rewrite Hrun. simpl. by apply stdout_load.
  - apply available_set_resolved. by apply available_load.
  - intros lang_id Hin.
    rewrite known_languages_set_resolved, known_languages_load.
    apply list_elem_of_fmap in Hin as ([k c] & -> & Hin).
    apply elem_of_map_to_list in Hin. by apply (Hends k c).
Qed.

Lemma acyclic_configuration_is_quiet_witness :
  available (ReadOk web_config) init
  ∧ _resolved_scopes init = None
  ∧ ∃ all_scopes s,
      get_all_scopes (ReadOk web_config) init = Some (all_scopes, s)
      ∧ stdout s = stdout init.
Proof.
  assert (available (ReadOk web_config) init) as Havail
    by (right; exists web_config; reflexivity).
  split; [exact Havail|]. split; [reflexivity|].
  apply (acyclic_configuration_is_quiet (ReadOk web_config) init Havail eq_refl).
  intros lang_id c Hl.
  destruct (decide (lang_id = "typescript")) as [->|Hts].
  { exists 1, "javascript". split; reflexivity. }
  destruct (decide (lang_id = "javascript")) as [->|Hjs].
  { exists 0, "javascript". split; reflexivity. }
  exfalso.
  change (known_languages (ReadOk web_config) init)
    with (<[ "typescript" := typescript ]>
            ({[ "javascript" := javascript ]} : gmap string lang_config)) in Hl.
  rewrite lookup_insert_ne in Hl by congruence.
  rewrite lookup_singleton_ne in Hl by congruence.
  discriminate Hl.
Defined.

End LoaderMore.
